(** * Todo list manager: task entity, in-memory repository and service layer

    A shallow embedding of [app/models.py], [app/repository.py] and
    [app/service.py], and the properties of the identifier policy, the
    validation rules and the status transitions.

    Python objects are mutable and shared: the repository's dictionary and
    every value the service returns hold references to the same [Task]
    objects.  The embedding therefore keeps an object store ([heap]) and
    lets the dictionary map identifiers to references into it. *)

From stdpp Require Import gmap strings list sorting pretty.
From Stdlib Require Import ZArith Lia.

Local Open Scope Z_scope.

(** ** The Python values the program handles *)

(** A [str] is a sequence of Unicode code points. *)
Definition str : Type := list N.

(** A string literal of the source, as a [str]. *)
Definition py (s : string) : str :=
  (λ c, Ascii.N_of_ascii c) <$> String.list_ascii_of_string s.

(** [len(s)] *)
Definition len {A} (s : list A) : Z := Z.of_nat (length s).

(** Truth value of a [str]: empty is false. *)
Definition truthy (s : str) : bool :=
  match s with [] => false | _ :: _ => true end.

(** [c.isspace()] for one code point: the characters CPython's [str.strip()]
    removes when called without an argument. *)
Definition isspace (c : N) : bool :=
  ((0x09 <=? c) && (c <=? 0x0D) ||
   (0x1C <=? c) && (c <=? 0x20) ||
   (c =? 0x85) || (c =? 0xA0) || (c =? 0x1680) ||
   (0x2000 <=? c) && (c <=? 0x200A) ||
   (c =? 0x2028) || (c =? 0x2029) || (c =? 0x202F) ||
   (c =? 0x205F) || (c =? 0x3000))%N.

Fixpoint lstrip (s : str) : str :=
  match s with
  | [] => []
  | c :: s' => if isspace c then lstrip s' else s
  end.

Definition rstrip (s : str) : str := reverse (lstrip (reverse s)).

(** [s.strip()] *)
Definition strip (s : str) : str := rstrip (lstrip s).

(** A [datetime] is a reading of the clock; the clock is an input of the
    operations that construct a task. *)
Definition datetime : Type := Z.

(** ** exceptions.py *)

Inductive exn : Type :=
  | ValidationError (msg : string)
  | TaskNotFoundError (msg : string)
  | AttributeError (msg : string)
    (** raised by Python when a method is called on [None] *)
  | DanglingReference.
    (** a reference outside the object store; no state the program reaches
        has one (see [wf_reachable]) *)

(** ** models.py *)

Inductive TaskStatus : Type := INCOMPLETE | COMPLETE.

Global Instance TaskStatus_eq_dec : EqDecision TaskStatus.
Proof. solve_decision. Defined.

(** The fields of a [Task] object and its methods, each method as the
    change it makes to the fields of [self]. *)
Module Task.
Record t : Type := mk {
  id : Z;
  title : str;
  description : str;
  status : TaskStatus;
  created_at : datetime
}.

(** [Task.__init__]; a [datetime] is never false, so [created_at or
    datetime.now()] takes the clock only when [created_at] is [None]. *)
Definition init (now : datetime) (task_id : Z) (title : str)
    (description : str) (status : TaskStatus)
    (created_at : option datetime) : t :=
  {| id := task_id; title := title; description := description;
     status := status; created_at := default now created_at |}.

Definition update_title (new_title : str) (self : t) : t :=
  {| id := id self; title := new_title; description := description self;
     status := status self; created_at := created_at self |}.

Definition update_description (new_description : str) (self : t) : t :=
  {| id := id self; title := title self; description := new_description;
     status := status self; created_at := created_at self |}.

Definition mark_complete (self : t) : t :=
  {| id := id self; title := title self; description := description self;
     status := COMPLETE; created_at := created_at self |}.

Definition mark_incomplete (self : t) : t :=
  {| id := id self; title := title self; description := description self;
     status := INCOMPLETE; created_at := created_at self |}.

Definition is_complete (self : t) : bool :=
  bool_decide (status self = COMPLETE).
End Task.

(** ** The program state *)

(** A reference to a [Task] object. *)
Abbreviation loc := nat.

(** The object store holding every [Task] ever constructed, and the fields
    of the one [TaskRepository] the service owns. *)
Record World : Type := mkWorld {
  heap : list Task.t;
  _tasks : gmap Z loc;
  _next_id : Z
}.

(** Operations read and write the state and may raise; what was written
    before an exception stays written. *)
Definition M (A : Type) : Type := World → World * (exn + A).

Global Instance M_ret : MRet M := λ A x w, (w, inr x).
Global Instance M_bind : MBind M := λ A B f m w,
  match m w with
  | (w', inr x) => f x w'
  | (w', inl e) => (w', inl e)
  end.

Global Instance M_fmap : FMap M := λ A B f m, x ← m; mret (f x).

Definition raise {A} (e : exn) : M A := λ w, (w, inl e).
Definition get_world : M World := λ w, (w, inr w).
Definition lift {A} (r : exn + A) : M A := λ w, (w, r).

(** Construct a [Task]: a new object in the store. *)
Definition new (o : Task.t) : M loc :=
  λ w, (mkWorld (heap w ++ [o]) (_tasks w) (_next_id w), inr (length (heap w))).

(** What Python says when the attribute [name] is looked up on [None]. *)
Definition no_attribute (name : string) : exn :=
  AttributeError ("'NoneType' object has no attribute '" +:+ name +:+ "'").

(** Read the attribute [name], or call the reading method [name], of the
    object behind [r]. *)
Definition call {A} (r : option loc) (name : string) (method : Task.t → A)
    : M A :=
  λ w, match r with
       | None => (w, inl (no_attribute name))
       | Some l =>
           match heap w !! l with
           | Some o => (w, inr (method o))
           | None => (w, inl DanglingReference)
           end
       end.

(** Call the method [name], which writes fields of the object behind [r]. *)
Definition invoke (r : option loc) (name : string)
    (method : Task.t → Task.t) : M unit :=
  λ w, match r with
       | None => (w, inl (no_attribute name))
       | Some l =>
           match heap w !! l with
           | Some o =>
               (mkWorld (<[l := method o]> (heap w)) (_tasks w) (_next_id w),
                inr ())
           | None => (w, inl DanglingReference)
           end
       end.

(** Assignments to the two fields of the repository. *)
Definition set_tasks (f : gmap Z loc → gmap Z loc) : M unit :=
  λ w, (mkWorld (heap w) (f (_tasks w)) (_next_id w), inr ()).

Definition set_next_id (f : Z → Z) : M unit :=
  λ w, (mkWorld (heap w) (_tasks w) (f (_next_id w)), inr ()).

(** ** repository.py *)

Module TaskRepository.
(** [TaskRepository.__init__] *)
Definition init : World :=
  {| heap := []; _tasks := ∅; _next_id := 1 |}.

Definition add_task (task : loc) : M loc :=
  task_id ← call (Some task) "id" Task.id;
  set_tasks (insert task_id task);;
  task_id ← call (Some task) "id" Task.id;
  set_next_id (λ next, Z.max next (task_id + 1));;
  mret task.

Definition get_task (task_id : Z) : M (option loc) :=
  w ← get_world; mret (_tasks w !! task_id).

Definition key_le (a b : Z * loc) : Prop := a.1 ≤ b.1.

Global Instance key_le_dec a b : Decision (key_le a b).
Proof. unfold key_le. apply _. Defined.

(** [sorted(self._tasks.values(), key=lambda t: t.id)]: every value is
    paired with its key, the pairs are sorted on the key, the values are
    returned.  The values come in the order the map holds them; the result
    depends on that order only among tasks of equal [id], and no reachable
    state has two (see [list_all_sorted]). *)
Definition get_all_tasks : M (list loc) :=
  w ← get_world;
  keyed ← mapM (λ t, k ← call (Some t) "id" Task.id; mret (k, t))
               ((map_to_list (_tasks w)).*2);
  mret ((merge_sort key_le keyed).*2).

Definition delete_task (task_id : Z) : M bool :=
  w ← get_world;
  if bool_decide (is_Some (_tasks w !! task_id)) return M bool then
    set_tasks (delete task_id);;
    mret true
  else mret false.

Definition task_exists (task_id : Z) : M bool :=
  w ← get_world; mret (bool_decide (is_Some (_tasks w !! task_id))).

Definition get_next_id : M Z :=
  w ← get_world; mret (_next_id w).

Definition clear : M unit :=
  set_tasks (λ _, ∅);;
  set_next_id (λ _, 1).
End TaskRepository.

(** ** service.py *)

Module TaskService.
Definition validate_title (title : str) : exn + str :=
  if negb (truthy title) || negb (truthy (strip title)) then
    inl (ValidationError "Task title cannot be empty")
  else
    let trimmed := strip title in
    if 200 <? len trimmed then
      inl (ValidationError "Task title exceeds 200 characters")
    else inr trimmed.

Definition validate_description (description : str) : exn + str :=
  if negb (truthy description) then inr []
  else
    let trimmed := strip description in
    if 500 <? len trimmed then
      inl (ValidationError "Description exceeds 500 characters")
    else inr trimmed.

Definition validate_task_id (task_id : Z) : M unit :=
  found ← TaskRepository.task_exists task_id;
  if negb (found : bool) return M unit then
    raise (TaskNotFoundError ("Task ID " +:+ pretty task_id +:+ " not found"))
  else mret ().

(** [now] is what [datetime.now()] returns inside the constructor. *)
Definition add_task (now : datetime) (title description : str) : M loc :=
  validated_title ← lift (validate_title title);
  validated_description ← lift (validate_description description);
  next ← TaskRepository.get_next_id;
  task ← new (Task.init now next validated_title validated_description
                        INCOMPLETE None);
  TaskRepository.add_task task.

Definition get_all_tasks : M (list loc) := TaskRepository.get_all_tasks.

Definition get_task (task_id : Z) : M (option loc) :=
  validate_task_id task_id;;
  TaskRepository.get_task task_id.

Definition update_task (task_id : Z) (new_title new_description : option str)
    : M (option loc * bool) :=
  validate_task_id task_id;;
  task ← TaskRepository.get_task task_id;
  let was_changed := false in
  was_changed ←
    match new_title with
    | Some new_title =>
        validated_title ← lift (validate_title new_title);
        current ← call task "title" Task.title;
        if bool_decide (validated_title ≠ current) return M bool then
          invoke task "update_title" (Task.update_title validated_title);;
          mret true
        else mret was_changed
    | None => mret was_changed
    end;
  was_changed ←
    match new_description with
    | Some new_description =>
        validated_description ← lift (validate_description new_description);
        current ← call task "description" Task.description;
        if bool_decide (validated_description ≠ current) return M bool then
          invoke task "update_description"
                 (Task.update_description validated_description);;
          mret true
        else mret was_changed
    | None => mret was_changed
    end;
  mret (task, was_changed).

Definition delete_task (task_id : Z) : M (option loc) :=
  validate_task_id task_id;;
  task ← TaskRepository.get_task task_id;
  TaskRepository.delete_task task_id;;
  mret task.

Definition mark_complete (task_id : Z) : M (option loc) :=
  validate_task_id task_id;;
  task ← TaskRepository.get_task task_id;
  complete ← call task "is_complete" Task.is_complete;
  if (complete : bool) return M (option loc) then
    raise (ValidationError "Task is already complete")
  else
    invoke task "mark_complete" Task.mark_complete;;
    mret task.

Definition mark_incomplete (task_id : Z) : M (option loc) :=
  validate_task_id task_id;;
  task ← TaskRepository.get_task task_id;
  complete ← call task "is_complete" Task.is_complete;
  if negb (complete : bool) return M (option loc) then
    raise (ValidationError "Task is already incomplete")
  else
    invoke task "mark_incomplete" Task.mark_incomplete;;
    mret task.

Definition get_statistics : M (Z * Z * Z) :=
  tasks ← get_all_tasks;
  let total := len tasks in
  flags ← mapM (λ t, call (Some t) "is_complete" Task.is_complete) tasks;
  let completed := foldr (λ (b : bool) acc, if b then 1 + acc else acc) 0 flags in
  let remaining := total - completed in
  mret (total, completed, remaining).
End TaskService.

(** ** Sequences of service calls *)

(** One call of the front end into the service.  [Add] carries the clock
    reading its constructor takes. *)
Inductive op : Type :=
  | Add (now : datetime) (title description : str)
  | ListAll
  | Get (task_id : Z)
  | Update (task_id : Z) (new_title new_description : option str)
  | Delete (task_id : Z)
  | MarkComplete (task_id : Z)
  | MarkIncomplete (task_id : Z)
  | Statistics.

Inductive value : Type :=
  | VTask (task : option loc)
  | VTasks (tasks : list loc)
  | VUpdated (r : option loc * bool)
  | VStatistics (r : Z * Z * Z).

Definition exec (o : op) : M value :=
  match o with
  | Add now title description =>
      task ← TaskService.add_task now title description; mret (VTask (Some task))
  | ListAll => VTasks <$> TaskService.get_all_tasks
  | Get task_id => VTask <$> TaskService.get_task task_id
  | Update task_id new_title new_description =>
      VUpdated <$> TaskService.update_task task_id new_title new_description
  | Delete task_id => VTask <$> TaskService.delete_task task_id
  | MarkComplete task_id => VTask <$> TaskService.mark_complete task_id
  | MarkIncomplete task_id => VTask <$> TaskService.mark_incomplete task_id
  | Statistics => VStatistics <$> TaskService.get_statistics
  end.

(** The state a call leaves, whether it returned or raised. *)
Definition step (w : World) (o : op) : World := (exec o w).1.

Definition run (ops : list op) (w : World) : World := foldl step w ops.

(** The states of a store's lifetime: those a sequence of calls reaches
    from a new repository. *)
Definition reachable (w : World) : Prop :=
  ∃ ops, run ops TaskRepository.init = w.

(** The [id] field of the task a call returned, read in the state the call
    left. *)
Definition returned_id (r : World * (exn + loc)) : option Z :=
  match r with
  | (w', inr task) => Task.id <$> heap w' !! task
  | (_, inl _) => None
  end.

(** The id an [Add] hands out, if it returns. *)
Definition issued_by (o : op) (w : World) : option Z :=
  match o with
  | Add now title description =>
      returned_id (TaskService.add_task now title description w)
  | _ => None
  end.

(** The ids handed out along a sequence of calls, in order. *)
Fixpoint issued (ops : list op) (w : World) : list Z :=
  match ops with
  | [] => []
  | o :: ops' => option_list (issued_by o w) ++ issued ops' (step w o)
  end.

(** The task stored under [task_id]: its reference and its fields. *)
Definition stored (w : World) (task_id : Z) (task : loc) (o : Task.t) : Prop :=
  _tasks w !! task_id = Some task ∧ heap w !! task = Some o.

(** The fields of the object behind a returned reference. *)
Definition deref (w : World) (r : option loc) : option Task.t :=
  l ← r; heap w !! l.

(** Every key of the dictionary leads to an object of the store whose [id]
    is that key. *)
Definition wf (w : World) : Prop :=
  ∀ k l, _tasks w !! k = Some l → ∃ o, heap w !! l = Some o ∧ Task.id o = k.

(** Nothing that was in the object store lost or changed its [id] or its
    [created_at]. *)
Definition immutable_fields (w w' : World) : Prop :=
  ∀ l o, heap w !! l = Some o →
    ∃ o', heap w' !! l = Some o' ∧
          Task.id o' = Task.id o ∧ Task.created_at o' = Task.created_at o.

(** The repository is as it was, and so are the objects up to their
    mutable fields. *)
Definition same_store (w w' : World) : Prop :=
  _tasks w' = _tasks w ∧ _next_id w' = _next_id w ∧
  length (heap w') = length (heap w) ∧ immutable_fields w w'.

(** An operation whose every run, returning or raising, relates the state
    before to the state after. *)
Definition preserves (R : relation World) {A} (m : M A) : Prop :=
  ∀ w, R w (m w).1.

(** The ids of a list of tasks, as [get_all_tasks] returns it. *)
Definition ids_of (w : World) (tasks : list loc) : list Z :=
  omap (λ l, Task.id <$> heap w !! l) tasks.

(** What each call of a sequence did: the value it returned or the
    exception it raised. *)
Fixpoint outcomes (ops : list op) (w : World) : list (exn + value) :=
  match ops with
  | [] => []
  | o :: ops' => (exec o w).2 :: outcomes ops' (step w o)
  end.

Definition is_add (o : op) : Prop :=
  match o with Add _ _ _ => True | _ => False end.

Definition returned {A} (r : exn + A) : Prop :=
  match r with inr _ => True | inl _ => False end.

(** The state [add_task] leaves when it has constructed [o] and inserted
    it. *)
Definition added (w : World) (o : Task.t) : World :=
  mkWorld (heap w ++ [o]) (<[Task.id o := length (heap w)]> (_tasks w))
          (Z.max (_next_id w) (Task.id o + 1)).

(** The state [delete_task] leaves when it has removed the entry of
    [task_id]. *)
Definition removed (w : World) (task_id : Z) : World :=
  mkWorld (heap w) (delete task_id (_tasks w)) (_next_id w).

(** Whether the task behind a reference is complete. *)
Definition is_complete_at (w : World) (task : loc) : bool :=
  match heap w !! task with
  | Some o => Task.is_complete o
  | None => false
  end.

(** The values of the dictionary, in the order the dictionary holds them. *)
Definition values (w : World) : list loc := (map_to_list (_tasks w)).*2.

(** The scenario of the specification: two tasks added, the first deleted,
    a third added. *)
Definition scenario : list op :=
  [Add 0 (py "Buy groceries") (py "Milk, eggs, bread");
   Add 1 (py "Call dentist") [];
   Delete 1;
   Add 2 (py "Finish project") []].

Definition w_scenario : World := run scenario TaskRepository.init.

(** The [status] field of the object behind a reference. *)
Definition status_at (w : World) (task : loc) : option TaskStatus :=
  Task.status <$> heap w !! task.

(** The scenario, after which the task with id 2 is marked complete. *)
Definition w_done : World := step w_scenario (MarkComplete 2).

(** Some concrete inputs. *)
Definition w_one : World := step TaskRepository.init (Add 0 (py "a") (py "")).
Definition long_text (n : nat) : str := replicate n 121%N.

(** The task of [w_one]: stored under id 1, incomplete. *)
Definition o_one : Task.t := Task.mk 1 (py "a") [] INCOMPLETE 0.

(** A text with nothing but white space in it; the empty text is one. *)
Definition whitespace_only (s : str) : Prop := Forall (λ c, isspace c = true) s.

(** A method that leaves [id] and [created_at] alone. *)
Definition keeps_identity (method : Task.t → Task.t) : Prop :=
  ∀ o, Task.id (method o) = Task.id o ∧
       Task.created_at (method o) = Task.created_at o.

(** The state [update_task] leaves when it has replaced the title of
    [task] by [v]. *)
Definition title_written (w : World) (task : loc) (o : Task.t) (v : str) : World :=
  mkWorld (<[task := Task.update_title v o]> (heap w)) (_tasks w) (_next_id w).

(** C1, as the claim words it, at one call: whenever the call raises
    [ValidationError], the stored task has the title and the description
    it had. *)
Definition update_atomic_at (w : World) (task_id : Z)
    (new_title new_description : option str) : Prop :=
  ∀ task o w' msg,
    stored w task_id task o →
    TaskService.update_task task_id new_title new_description w
    = (w', inl (ValidationError msg)) →
    ∃ o', stored w' task_id task o' ∧
          Task.title o' = Task.title o ∧
          Task.description o' = Task.description o.

(** ** Further definitions *)

(** A text that trimming leaves as it is. *)
Definition trimmed (s : str) : Prop := strip s = s.

(** The state in which the fields of the object behind [task] are [o] and
    everything else is as in [w]. *)
Definition write (w : World) (task : loc) (o : Task.t) : World :=
  mkWorld (<[task := o]> (heap w)) (_tasks w) (_next_id w).

(** An optional field of [update_task], validated when it is provided. *)
Definition validate_opt (validate : str → exn + str) (new : option str)
    : exn + option str :=
  match new with
  | None => inr None
  | Some x =>
      match validate x with
      | inl e => inl e
      | inr v => inr (Some v)
      end
  end.

(** A task with the provided fields replaced. *)
Definition updated (vt vd : option str) (o : Task.t) : Task.t :=
  Task.mk (Task.id o) (default (Task.title o) vt)
          (default (Task.description o) vd) (Task.status o)
          (Task.created_at o).

(** The message of [TaskNotFoundError]. *)
Definition not_found (task_id : Z) : exn :=
  TaskNotFoundError ("Task ID " +:+ pretty task_id +:+ " not found").

(** The constraints of the data model on the texts of a task. *)
Definition valid_task (o : Task.t) : Prop :=
  trimmed (Task.title o) ∧ 1 ≤ len (Task.title o) ≤ 200 ∧
  trimmed (Task.description o) ∧ len (Task.description o) ≤ 500.

(** The objects of the store carry the ids 1, 2, ... in the order of their
    construction, and the counter is one past the last. *)
Definition counted (w : World) : Prop :=
  _next_id w = len (heap w) + 1 ∧
  ∀ i o, heap w !! i = Some o → Task.id o = Z.of_nat i + 1.

(** What [get_all_tasks] returns in a state that satisfies the invariant:
    the values of the dictionary in the order of their keys. *)
Definition listing (w : World) : list loc :=
  (merge_sort TaskRepository.key_le (map_to_list (_tasks w))).*2.

(** ** ui.py: reading a line of text *)

(** [max_length and len(value) > max_length]: no limit when [max_length]
    is [None] or 0. *)
Definition exceeds (max_length : option Z) (value : str) : bool :=
  match max_length with
  | Some n => negb (n =? 0) && (n <? len value)
  | None => false
  end.

(** What [print] writes: the text and a newline. *)
Definition line (s : str) : str := s ++ [10%N].

(** The message [get_text_input] prints for a line over [max_length]. *)
Definition too_long (max_length : option Z) : str :=
  match max_length with
  | Some n => py ("Error: Input exceeds " +:+ pretty n +:+ " characters")
  | None => py "Error: Input exceeds None characters"
  end.

(** [TodoApp.get_text_input].  The console is the list of lines still to be
    read from standard input and the list of texts written to standard
    output so far; [input(prompt)] writes the prompt and takes the next
    line, and raises [EOFError], here [None], when there is none.  Every
    turn of the loop takes one line. *)
Fixpoint get_text_input (prompt : str) (required : bool)
    (max_length : option Z) (stdin : list str) (stdout : list str)
    : list str * list str * option str :=
  match stdin with
  | [] => ([], stdout ++ [prompt], None)
  | value :: stdin' =>
      let stdout := stdout ++ [prompt] in
      if negb required && bool_decide (value = []) then
        (stdin', stdout, Some [])
      else if required && negb (truthy (strip value)) then
        get_text_input prompt required max_length stdin'
          (stdout ++ [line (py "Error: Input cannot be empty")])
      else if exceeds max_length value then
        get_text_input prompt required max_length stdin'
          (stdout ++ [line (too_long max_length)])
      else (stdin', stdout, Some value)
  end.

(** * Properties *)

(** ** Trimming *)

Lemma lstrip_nil (s : str) : lstrip s = [] ↔ whitespace_only s.
Proof.
  unfold whitespace_only. induction s as [|c s IH]; simpl.
  - split; [constructor | done].
  - destruct (isspace c) eqn:Hc.
    + rewrite IH. split; [by constructor | by inversion 1].
    + split; [done | inversion 1; congruence].
Qed.

Lemma lstrip_whitespace_only (s : str) :
  whitespace_only (lstrip s) ↔ whitespace_only s.
Proof.
  unfold whitespace_only. induction s as [|c s IH]; simpl; [done|].
  destruct (isspace c) eqn:Hc; [|done].
  rewrite IH. split; [by constructor | by inversion 1].
Qed.

Lemma strip_nil (s : str) : strip s = [] ↔ whitespace_only s.
Proof.
  rewrite <- (lstrip_whitespace_only s).
  transitivity (whitespace_only (reverse (lstrip s))).
  - rewrite <- lstrip_nil. unfold strip, rstrip. split; intros H.
    + apply (f_equal reverse) in H. by rewrite reverse_involutive in H.
    + by rewrite H.
  - unfold whitespace_only. apply Forall_reverse.
Qed.

Lemma truthy_false (s : str) : truthy s = false ↔ s = [].
Proof. by destruct s. Qed.

Lemma strip_empty_input (s : str) : truthy s = false → strip s = [].
Proof. rewrite truthy_false. by intros ->. Qed.

(** ** validate_title *)

(** C8. [validate_title] raises [ValidationError] exactly when the title is
    empty or white space only, or when its trimmed length exceeds 200; it
    raises nothing else, and otherwise returns the trimmed text. *)
Theorem validate_title_spec (title : str) :
  ((∃ msg, TaskService.validate_title title = inl (ValidationError msg)) ↔
     whitespace_only title ∨ 200 < len (strip title)) ∧
  (TaskService.validate_title title = inr (strip title) ↔
     ¬ whitespace_only title ∧ len (strip title) ≤ 200) ∧
  (∀ e, TaskService.validate_title title = inl e → ∃ msg, e = ValidationError msg).
Proof.
  unfold TaskService.validate_title.
  destruct (truthy title) eqn:Ht; simpl.
  - destruct (truthy (strip title)) eqn:Hs; simpl.
    + assert (¬ whitespace_only title) as Hne.
      { rewrite <- strip_nil. intros E. by rewrite E in Hs. }
      destruct (Z.ltb_spec 200 (len (strip title))) as [Hlen|Hlen].
      * split_and!; [split; eauto | split; [done | lia] | ].
        intros e [= <-]. eauto.
      * split_and!; [split; [by intros [? ?] | intros [?|?]; [done | lia]]
                    | done | done].
    + apply truthy_false, strip_nil in Hs.
      split_and!; [split; eauto | split; [done | tauto] | ].
      intros e [= <-]. eauto.
  - apply strip_empty_input, strip_nil in Ht.
    split_and!; [split; eauto | split; [done | tauto] | ].
    intros e [= <-]. eauto.
Qed.

(** A title of exactly 200 characters, with white space around it. *)
Lemma validate_title_spec_witness :
  TaskService.validate_title (py " " ++ long_text 200 ++ py " ")
  = inr (long_text 200).
Proof.
  pose proof (validate_title_spec (py " " ++ long_text 200 ++ py " "))
    as (_ & H & _).
  replace (long_text 200) with (strip (py " " ++ long_text 200 ++ py " "))
    by (by vm_compute).
  apply H. split.
  - intros Hw. apply strip_nil in Hw. by vm_compute in Hw.
  - by vm_compute.
Defined.

(** ** Running an operation on a state *)

Ltac unfold_M :=
  unfold mbind, M_bind, mret, M_ret, fmap, M_fmap, raise, lift, get_world,
    call, invoke, set_tasks, set_next_id, new in *.

Lemma validate_task_id_stored w k l :
  _tasks w !! k = Some l → TaskService.validate_task_id k w = (w, inr ()).
Proof.
  intros H. unfold TaskService.validate_task_id, TaskRepository.task_exists.
  unfold_M. by rewrite H.
Qed.

Lemma validate_task_id_missing w k :
  _tasks w !! k = None →
  TaskService.validate_task_id k w
  = (w, inl (TaskNotFoundError ("Task ID " +:+ pretty k +:+ " not found"))).
Proof.
  intros H. unfold TaskService.validate_task_id, TaskRepository.task_exists.
  unfold_M. by rewrite H.
Qed.

Lemma heap_insert_eq (h : list Task.t) l o o' :
  h !! l = Some o → <[l := o']> h !! l = Some o'.
Proof. intros H. apply list_lookup_insert_eq. by eapply lookup_lt_Some. Qed.

(** Enter an operation on a stored task: the existence check passes and the
    fetch gives its reference. *)
Ltac enter_stored Hk :=
  unfold TaskRepository.get_task;
  unfold mbind at 1, M_bind at 1;
  rewrite (validate_task_id_stored _ _ _ Hk);
  unfold_M; rewrite Hk.

Lemma mark_complete_stored w task_id task o :
  stored w task_id task o →
  TaskService.mark_complete task_id w =
    if Task.is_complete o then
      (w, inl (ValidationError "Task is already complete"))
    else
      (mkWorld (<[task := Task.mark_complete o]> (heap w)) (_tasks w) (_next_id w),
       inr (Some task)).
Proof.
  intros [Hk Hl]. unfold TaskService.mark_complete. enter_stored Hk.
  rewrite Hl. destruct (Task.is_complete o); simpl; [done|]. by rewrite Hl.
Qed.

Lemma mark_incomplete_stored w task_id task o :
  stored w task_id task o →
  TaskService.mark_incomplete task_id w =
    if Task.is_complete o then
      (mkWorld (<[task := Task.mark_incomplete o]> (heap w)) (_tasks w) (_next_id w),
       inr (Some task))
    else
      (w, inl (ValidationError "Task is already incomplete")).
Proof.
  intros [Hk Hl]. unfold TaskService.mark_incomplete. enter_stored Hk.
  rewrite Hl. destruct (Task.is_complete o); simpl; [|done]. by rewrite Hl.
Qed.

Lemma is_complete_status o :
  Task.is_complete o = true ↔ Task.status o = COMPLETE.
Proof. unfold Task.is_complete. apply bool_decide_eq_true. Qed.

Lemma is_complete_incomplete o :
  Task.is_complete o = false ↔ Task.status o = INCOMPLETE.
Proof.
  unfold Task.is_complete. rewrite bool_decide_eq_false.
  destruct (Task.status o); split; congruence.
Qed.

Lemma stored_write w task_id task o o' :
  stored w task_id task o →
  stored (mkWorld (<[task := o']> (heap w)) (_tasks w) (_next_id w))
         task_id task o'.
Proof. intros [Hk Hl]. split; [done|]. simpl. by eapply heap_insert_eq. Qed.

(** ** Status transitions *)

(** C4. On a stored task, [mark_complete] raises [ValidationError] when the
    status is already [COMPLETE], and otherwise returns the task with its
    status set to [COMPLETE], so that a second [mark_complete] raises;
    [mark_incomplete] is the mirror image. *)
Theorem no_op_transition_rejected w task_id task o :
  stored w task_id task o →
  (Task.status o = COMPLETE →
     TaskService.mark_complete task_id w
     = (w, inl (ValidationError "Task is already complete")) ∧
     ∃ w', TaskService.mark_incomplete task_id w = (w', inr (Some task)) ∧
           stored w' task_id task (Task.mark_incomplete o) ∧
           TaskService.mark_incomplete task_id w'
           = (w', inl (ValidationError "Task is already incomplete"))) ∧
  (Task.status o = INCOMPLETE →
     TaskService.mark_incomplete task_id w
     = (w, inl (ValidationError "Task is already incomplete")) ∧
     ∃ w', TaskService.mark_complete task_id w = (w', inr (Some task)) ∧
           stored w' task_id task (Task.mark_complete o) ∧
           TaskService.mark_complete task_id w'
           = (w', inl (ValidationError "Task is already complete"))).
Proof.
  intros Hst. split; intros Hs.
  - apply is_complete_status in Hs.
    rewrite (mark_complete_stored _ _ _ _ Hst), (mark_incomplete_stored _ _ _ _ Hst), Hs.
    split; [done|]. eexists. split; [done|].
    pose proof (stored_write _ _ _ _ (Task.mark_incomplete o) Hst) as Hst'.
    split; [done|]. by rewrite (mark_incomplete_stored _ _ _ _ Hst').
  - apply is_complete_incomplete in Hs.
    rewrite (mark_complete_stored _ _ _ _ Hst), (mark_incomplete_stored _ _ _ _ Hst), Hs.
    split; [done|]. eexists. split; [done|].
    pose proof (stored_write _ _ _ _ (Task.mark_complete o) Hst) as Hst'.
    split; [done|]. by rewrite (mark_complete_stored _ _ _ _ Hst').
Qed.

Lemma stored_w_one : stored w_one 1 0%nat o_one.
Proof. split; by vm_compute. Defined.

Lemma no_op_transition_rejected_witness :
  TaskService.mark_incomplete 1 w_one
  = (w_one, inl (ValidationError "Task is already incomplete")).
Proof.
  exact (proj1 (proj2 (no_op_transition_rejected w_one 1 0%nat o_one stored_w_one)
                      eq_refl)).
Defined.

(** C9. A status change is seen through the repository: after
    [mark_complete] returns for a stored incomplete task, [get_task] on the
    same id returns the same object and its status is [COMPLETE]; likewise
    for [mark_incomplete] on a complete task. *)
Theorem status_change_persists w task_id task o :
  stored w task_id task o →
  (Task.status o = INCOMPLETE →
     ∃ w' r o', TaskService.mark_complete task_id w = (w', inr r) ∧
                TaskService.get_task task_id w' = (w', inr r) ∧
                deref w' r = Some o' ∧ Task.status o' = COMPLETE) ∧
  (Task.status o = COMPLETE →
     ∃ w' r o', TaskService.mark_incomplete task_id w = (w', inr r) ∧
                TaskService.get_task task_id w' = (w', inr r) ∧
                deref w' r = Some o' ∧ Task.status o' = INCOMPLETE).
Proof.
  intros Hst. split; intros Hs.
  - apply is_complete_incomplete in Hs.
    rewrite (mark_complete_stored _ _ _ _ Hst), Hs.
    destruct (stored_write _ _ _ _ (Task.mark_complete o) Hst) as [Hk Hl].
    eexists _, _, _. split; [done|]. split_and!; [|exact Hl|done].
    unfold TaskService.get_task. enter_stored Hk. done.
  - apply is_complete_status in Hs.
    rewrite (mark_incomplete_stored _ _ _ _ Hst), Hs.
    destruct (stored_write _ _ _ _ (Task.mark_incomplete o) Hst) as [Hk Hl].
    eexists _, _, _. split; [done|]. split_and!; [|exact Hl|done].
    unfold TaskService.get_task. enter_stored Hk. done.
Qed.

Lemma status_change_persists_witness :
  ∃ w' r o', TaskService.mark_complete 1 w_one = (w', inr r) ∧
             TaskService.get_task 1 w' = (w', inr r) ∧
             deref w' r = Some o' ∧ Task.status o' = COMPLETE.
Proof.
  exact (proj1 (status_change_persists w_one 1 0%nat o_one stored_w_one) eq_refl).
Defined.

(** ** update_task *)

Lemma update_title_same o : Task.update_title (Task.title o) o = o.
Proof. by destruct o. Qed.

Lemma update_description_same o :
  Task.update_description (Task.description o) o = o.
Proof. by destruct o. Qed.

(** C6. On a stored task, [update_task] with a title that validates to the
    current title and a description that validates to the current
    description returns the task with [was_changed] false and leaves the
    whole state as it was: the task's [id], [created_at], [title],
    [description] and [status] included. *)
Theorem update_same_values_unchanged w task_id task o t d :
  stored w task_id task o →
  TaskService.validate_title t = inr (Task.title o) →
  TaskService.validate_description d = inr (Task.description o) →
  TaskService.update_task task_id (Some t) (Some d) w
  = (w, inr (Some task, false)) ∧
  stored w task_id task o.
Proof.
  intros Hst Ht Hd. split; [|done]. destruct Hst as [Hk Hl].
  unfold TaskService.update_task. enter_stored Hk.
  rewrite Ht, Hl. rewrite bool_decide_eq_false_2 by (intros H; by apply H).
  rewrite Hd, Hl. rewrite bool_decide_eq_false_2 by (intros H; by apply H).
  done.
Qed.

Lemma update_same_values_unchanged_witness :
  TaskService.update_task 1 (Some (py " a ")) (Some (py " ")) w_one
  = (w_one, inr (Some 0%nat, false)).
Proof.
  exact (proj1 (update_same_values_unchanged w_one 1 0%nat o_one
                  (py " a ") (py " ") stored_w_one eq_refl eq_refl)).
Defined.

(** C1, as the code has it.  When [update_task] raises [ValidationError] on
    a stored task, either the title was rejected and the state is as it
    was, or the description was rejected: then the description, the status,
    the [id] and [created_at] are as they were, but a provided title that
    validated to a value other than the current one has already replaced
    it. *)
Theorem update_failure_effect w task_id task o new_title new_description w' msg :
  stored w task_id task o →
  TaskService.update_task task_id new_title new_description w
  = (w', inl (ValidationError msg)) →
  (∃ t, new_title = Some t ∧
        TaskService.validate_title t = inl (ValidationError msg) ∧ w' = w) ∨
  (∃ d, new_description = Some d ∧
        TaskService.validate_description d = inl (ValidationError msg) ∧
        match new_title with
        | None => w' = w
        | Some t =>
            ∃ v, TaskService.validate_title t = inr v ∧
                 w' = if bool_decide (v ≠ Task.title o)
                      then title_written w task o v else w
        end).
Proof.
  intros [Hk Hl]. unfold TaskService.update_task. enter_stored Hk.
  destruct new_title as [t|].
  - destruct (TaskService.validate_title t) as [e|v] eqn:Ht.
    { intros [= <- ->]. left. eauto. }
    rewrite Hl. case_bool_decide as Hv.
    + rewrite Hl. simpl.
      destruct new_description as [d|]; [|done].
      destruct (TaskService.validate_description d) as [e|vd] eqn:Hd.
      * intros [= <- ->]. right. eexists. split_and!; [done..|].
        eexists. split; [done|]. by rewrite bool_decide_eq_true_2.
      * simpl. rewrite (heap_insert_eq _ _ _ _ Hl). case_bool_decide; [|done].
        simpl. by rewrite (heap_insert_eq _ _ _ _ Hl).
    + destruct new_description as [d|]; [|done].
      destruct (TaskService.validate_description d) as [e|vd] eqn:Hd.
      * intros [= <- ->]. right. eexists. split_and!; [done..|].
        eexists. split; [done|]. rewrite bool_decide_eq_false_2; [done|]. by intros ?.
      * rewrite Hl. case_bool_decide; [|done]. by rewrite Hl.
  - destruct new_description as [d|]; [|done].
    destruct (TaskService.validate_description d) as [e|vd] eqn:Hd.
    + intros [= <- ->]. right. eauto.
    + rewrite Hl. case_bool_decide; [|done]. by rewrite Hl.
Qed.

(** A valid new title with a description of 501 characters: the call
    raises, and the title is already the new one. *)
Lemma update_not_atomic :
  ¬ update_atomic_at w_one 1 (Some (py "b")) (Some (long_text 501)).
Proof.
  intros H.
  destruct (H 0%nat o_one
              (title_written w_one 0%nat o_one (py "b"))
              "Description exceeds 500 characters" stored_w_one)
    as (o' & [_ Hl] & Ht & _).
  - by vm_compute.
  - vm_compute in Hl. injection Hl as <-. by vm_compute in Ht.
Qed.

Lemma update_failure_effect_witness :
  ∃ d, Some (long_text 501) = Some d ∧
       TaskService.validate_description d
       = inl (ValidationError "Description exceeds 500 characters").
Proof.
  assert (TaskService.update_task 1 (Some (py "b")) (Some (long_text 501)) w_one
          = (title_written w_one 0%nat o_one (py "b"),
             inl (ValidationError "Description exceeds 500 characters")))
    as Hrun by (by vm_compute).
  destruct (update_failure_effect _ _ _ _ _ _ _ _ stored_w_one Hrun)
    as [(t & Hs & Ht & _) | (d & Hd & Hv & _)].
  - exfalso. injection Hs as <-. vm_compute in Ht. discriminate Ht.
  - exists d. by split.
Defined.

(** ** What an operation can do to the state *)

Global Instance immutable_fields_preorder : PreOrder immutable_fields.
Proof.
  split.
  - intros w l o H. eauto.
  - intros w1 w2 w3 H12 H23 l o H.
    destruct (H12 _ _ H) as (o2 & H2 & Hid2 & Hc2).
    destruct (H23 _ _ H2) as (o3 & H3 & Hid3 & Hc3).
    exists o3. split_and!; [done|congruence..].
Qed.

Global Instance same_store_preorder : PreOrder same_store.
Proof.
  split.
  - intros w. by split_and!.
  - intros w1 w2 w3 (?&?&?&?) (?&?&?&?).
    split_and!; [congruence..|by etrans].
Qed.

Section preserves.
Context (R : relation World) `{!PreOrder R}.

Lemma preserves_ret {A} (x : A) : preserves R (mret x).
Proof. intros w. done. Qed.

Lemma preserves_bind {A B} (m : M A) (f : A → M B) :
  preserves R m → (∀ x, preserves R (f x)) → preserves R (m ≫= f).
Proof.
  intros Hm Hf w. unfold mbind, M_bind. specialize (Hm w).
  destruct (m w) as [w1 [e|x]]; simpl in *; [done|].
  etrans; [exact Hm | apply Hf].
Qed.

Lemma preserves_fmap {A B} (g : A → B) (m : M A) :
  preserves R m → preserves R (g <$> m).
Proof. intros Hm. apply preserves_bind; [done|]. intros x. apply preserves_ret. Qed.

Lemma preserves_raise {A} e : preserves R (@raise A e).
Proof. intros w. done. Qed.

Lemma preserves_lift {A} (r : exn + A) : preserves R (lift r).
Proof. intros w. done. Qed.

Lemma preserves_get_world : preserves R get_world.
Proof. intros w. done. Qed.

Lemma preserves_call {A} r name (method : Task.t → A) :
  preserves R (call r name method).
Proof. intros w. unfold call. destruct r as [l|]; [|done]. by destruct (heap w !! l). Qed.

Lemma preserves_mapM {A B} (f : A → M B) (l : list A) :
  (∀ x, preserves R (f x)) → preserves R (mapM f l).
Proof.
  intros Hf. induction l as [|x l IH]; simpl.
  - apply preserves_ret.
  - apply preserves_bind; [done|]. intros y.
    apply preserves_bind; [done|]. intros k. apply preserves_ret.
Qed.

Lemma preserves_if {A} (b : bool) (m1 m2 : M A) :
  preserves R m1 → preserves R m2 → preserves R (if b then m1 else m2).
Proof. by destruct b. Qed.
End preserves.

(** None of the four mutators of [Task] assigns [id] or [created_at]. *)
Lemma mutators_keep_identity v :
  keeps_identity (Task.update_title v) ∧
  keeps_identity (Task.update_description v) ∧
  keeps_identity Task.mark_complete ∧
  keeps_identity Task.mark_incomplete.
Proof. by split_and!. Qed.

Lemma invoke_same_store r name method :
  keeps_identity method → preserves same_store (invoke r name method).
Proof.
  intros Hm w. unfold invoke. destruct r as [l|]; [|done].
  destruct (heap w !! l) as [o|] eqn:Hl; [|done]. cbn [fst].
  split_and!; [done|done|apply length_insert|].
  intros l' o' Hl'. cbn [heap]. destruct (decide (l = l')) as [<-|Hne].
  - rewrite (heap_insert_eq _ _ _ _ Hl). eexists. split; [done|].
    assert (o' = o) as -> by congruence. apply Hm.
  - rewrite list_lookup_insert_ne by done. eauto.
Qed.

Lemma same_store_immutable w w' : same_store w w' → immutable_fields w w'.
Proof. by intros (_&_&_&?). Qed.

Lemma preserves_weaken (R R' : relation World) {A} (m : M A) :
  (∀ w w', R w w' → R' w w') → preserves R m → preserves R' m.
Proof. intros HR Hm w. apply HR, Hm. Qed.

Lemma new_immutable o : preserves immutable_fields (new o).
Proof.
  intros w l o' Hl. simpl. exists o'. split; [|done].
  by apply lookup_app_l_Some.
Qed.

Lemma set_tasks_immutable f : preserves immutable_fields (set_tasks f).
Proof. intros w l o Hl. simpl. eauto. Qed.

Lemma set_next_id_immutable f : preserves immutable_fields (set_next_id f).
Proof. intros w l o Hl. simpl. eauto. Qed.

Create HintDb effects.

#[export] Hint Resolve preserves_ret preserves_raise preserves_lift
  preserves_get_world preserves_call invoke_same_store new_immutable
  set_tasks_immutable set_next_id_immutable : effects.
#[export] Hint Extern 1 (keeps_identity _) => (intros ?; split; reflexivity) : effects.

(** Follow the structure of an operation down to its primitive steps. *)
Ltac effects_step :=
  match goal with
  | |- preserves _ (_ ≫= _) => apply preserves_bind; [try apply _ ..| |intros ?]
  | |- preserves _ (_ <$> _) => apply preserves_fmap; [try apply _ ..|]
  | |- preserves _ (mapM _ _) => apply preserves_mapM; [try apply _ ..|intros ?]
  | |- preserves _ (match ?x with _ => _ end) => destruct x
  | |- preserves _ _ => solve [eauto with effects typeclass_instances]
  end.

Ltac effects := intros; repeat effects_step.

(** The operations that only read. *)
Lemma get_all_tasks_same_store : preserves same_store TaskRepository.get_all_tasks.
Proof. unfold TaskRepository.get_all_tasks. effects. Qed.

Lemma validate_task_id_same_store k :
  preserves same_store (TaskService.validate_task_id k).
Proof.
  unfold TaskService.validate_task_id, TaskRepository.task_exists. effects.
Qed.

Lemma get_task_same_store k : preserves same_store (TaskService.get_task k).
Proof.
  unfold TaskService.get_task, TaskRepository.get_task.
  pose proof (validate_task_id_same_store k). effects.
Qed.

Lemma get_statistics_same_store : preserves same_store TaskService.get_statistics.
Proof.
  unfold TaskService.get_statistics, TaskService.get_all_tasks.
  pose proof get_all_tasks_same_store. effects.
Qed.

(** The operations that write the mutable fields of one task. *)
Lemma update_task_same_store k new_title new_description :
  preserves same_store (TaskService.update_task k new_title new_description).
Proof.
  unfold TaskService.update_task, TaskRepository.get_task.
  pose proof (validate_task_id_same_store k). effects.
Qed.

Lemma mark_complete_same_store k : preserves same_store (TaskService.mark_complete k).
Proof.
  unfold TaskService.mark_complete, TaskRepository.get_task.
  pose proof (validate_task_id_same_store k). effects.
Qed.

Lemma mark_incomplete_same_store k :
  preserves same_store (TaskService.mark_incomplete k).
Proof.
  unfold TaskService.mark_incomplete, TaskRepository.get_task.
  pose proof (validate_task_id_same_store k). effects.
Qed.

(** ** add_task and delete_task *)

Lemma add_task_run now title description w :
  TaskService.add_task now title description w =
    match TaskService.validate_title title with
    | inl e => (w, inl e)
    | inr vt =>
        match TaskService.validate_description description with
        | inl e => (w, inl e)
        | inr vd =>
            (added w (Task.init now (_next_id w) vt vd INCOMPLETE None),
             inr (length (heap w)))
        end
    end.
Proof.
  unfold TaskService.add_task, TaskRepository.add_task,
    TaskRepository.get_next_id.
  unfold_M.
  destruct (TaskService.validate_title title) as [e|vt]; [done|].
  destruct (TaskService.validate_description description) as [e|vd]; [done|].
  simpl. rewrite list_lookup_middle by done.
  simpl. rewrite list_lookup_middle by done. done.
Qed.

Lemma delete_task_run k w :
  TaskService.delete_task k w =
    match _tasks w !! k with
    | Some l => (removed w k, inr (Some l))
    | None =>
        (w, inl (TaskNotFoundError ("Task ID " +:+ pretty k +:+ " not found")))
    end.
Proof.
  unfold TaskService.delete_task.
  destruct (_tasks w !! k) as [l|] eqn:Hk.
  - unfold TaskRepository.delete_task. enter_stored Hk. done.
  - unfold mbind at 1, M_bind at 1. by rewrite (validate_task_id_missing _ _ Hk).
Qed.

(** What one call does to the state: it leaves the repository alone, or it
    is an [Add] that inserted a new task under the next id, or a [Delete]
    that removed an entry. *)
Lemma step_cases w o :
  same_store w (step w o) ∨
  (∃ now title description vt vd,
     o = Add now title description ∧
     (exec o w).2 = inr (VTask (Some (length (heap w)))) ∧
     step w o = added w (Task.init now (_next_id w) vt vd INCOMPLETE None)) ∨
  (∃ k l, o = Delete k ∧ _tasks w !! k = Some l ∧ step w o = removed w k).
Proof.
  unfold step. destruct o as [now t d| |k|k nt nd|k|k|k|]; simpl.
  - unfold mbind, M_bind. rewrite add_task_run.
    destruct (TaskService.validate_title t) as [e|vt]; [by left|].
    destruct (TaskService.validate_description d) as [e|vd]; [by left|].
    right; left. by eexists _, _, _, _, _.
  - left. apply (preserves_fmap same_store), get_all_tasks_same_store.
  - left. apply (preserves_fmap same_store), get_task_same_store.
  - left. apply (preserves_fmap same_store), update_task_same_store.
  - unfold fmap, M_fmap, mbind, M_bind. rewrite delete_task_run.
    destruct (_tasks w !! k) as [l|] eqn:Hk; [|by left].
    right; right. by eexists _, _.
  - left. apply (preserves_fmap same_store), mark_complete_same_store.
  - left. apply (preserves_fmap same_store), mark_incomplete_same_store.
  - left. apply (preserves_fmap same_store), get_statistics_same_store.
Qed.

Lemma added_immutable w o : immutable_fields w (added w o).
Proof. intros l o' Hl. exists o'. split; [|done]. by apply lookup_app_l_Some. Qed.

Lemma removed_immutable w k : immutable_fields w (removed w k).
Proof. intros l o Hl. eauto. Qed.

Lemma step_immutable w o : immutable_fields w (step w o).
Proof.
  destruct (step_cases w o)
    as [H | [(?&?&?&?&?&_&_&->) | (?&?&_&_&->)]].
  - by apply same_store_immutable.
  - apply added_immutable.
  - apply removed_immutable.
Qed.

Lemma run_immutable ops w : immutable_fields w (run ops w).
Proof.
  revert w. induction ops as [|o ops IH]; intros w; simpl; [done|].
  etrans; [apply step_immutable | apply IH].
Qed.

(** ** Identity of a task *)

(** C10. Along every sequence of service calls, every task object keeps
    the [id] and the [created_at] it was constructed with, whether it is
    still stored or has been deleted. *)
Theorem id_and_created_at_immutable (ops : list op) (w : World) task o :
  heap w !! task = Some o →
  ∃ o', heap (run ops w) !! task = Some o' ∧
        Task.id o' = Task.id o ∧
        Task.created_at o' = Task.created_at o.
Proof. apply run_immutable. Qed.

Lemma id_and_created_at_immutable_witness :
  ∃ o', heap (run [Update 1 (Some (py "b")) (Some (py "c")); MarkComplete 1;
                   Add 5 (py "d") []; MarkIncomplete 1; Delete 1; Statistics]
                  w_one) !! 0%nat = Some o' ∧
        Task.id o' = 1 ∧ Task.created_at o' = 0.
Proof.
  exact (id_and_created_at_immutable
           [Update 1 (Some (py "b")) (Some (py "c")); MarkComplete 1;
            Add 5 (py "d") []; MarkIncomplete 1; Delete 1; Statistics]
           w_one 0%nat o_one eq_refl).
Defined.

(** ** The identifier policy *)

(** The repository's own [add_task], on any task object whatever its [id]:
    the entry is written under that [id], and the counter ends above it and
    not below where it was. *)
Lemma repository_add_task_counter w task o :
  heap w !! task = Some o →
  ∃ w', TaskRepository.add_task task w = (w', inr task) ∧
        _tasks w' = <[Task.id o := task]> (_tasks w) ∧
        Task.id o < _next_id w' ∧ _next_id w ≤ _next_id w'.
Proof.
  intros Hl. unfold TaskRepository.add_task. unfold_M. rewrite Hl. simpl.
  rewrite Hl. eexists. split; [done|]. simpl. split; [done|lia].
Qed.

Lemma run_app ops1 ops2 w : run (ops1 ++ ops2) w = run ops2 (run ops1 w).
Proof. apply foldl_app. Qed.

Lemma issued_app ops1 ops2 w :
  issued (ops1 ++ ops2) w = issued ops1 w ++ issued ops2 (run ops1 w).
Proof.
  revert w. induction ops1 as [|o ops1 IH]; intros w; simpl; [done|].
  by rewrite IH, (assoc_L (++)).
Qed.

Lemma step_next_id_other w o :
  ¬ is_add o → _next_id (step w o) = _next_id w.
Proof.
  intros Ho.
  destruct (step_cases w o) as [(_&H&_) | [(?&?&?&?&?&Hadd&_) | (?&?&_&_&H)]].
  - done.
  - rewrite Hadd in Ho. by destruct Ho.
  - by rewrite H.
Qed.

(** An [Add] that returns hands out the counter's value and advances the
    counter by one; every other call, and an [Add] that raises, hands out
    nothing and leaves the counter alone. *)
Lemma issued_by_cases w o :
  (issued_by o w = None ∧ _next_id (step w o) = _next_id w) ∨
  (issued_by o w = Some (_next_id w) ∧ _next_id (step w o) = _next_id w + 1).
Proof.
  destruct o as [now t d| |k|k nt nd|k|k|k|];
    try (left; split; [done | apply step_next_id_other; intros []]).
  unfold issued_by, step. simpl. unfold mbind, M_bind. rewrite add_task_run.
  destruct (TaskService.validate_title t) as [e|vt]; [by left|].
  destruct (TaskService.validate_description d) as [e|vd]; [by left|].
  right. simpl. rewrite list_lookup_middle by done. split; [done|lia].
Qed.

Lemma add_returned_issued w o :
  is_add o → returned (exec o w).2 → issued_by o w = Some (_next_id w).
Proof.
  destruct o as [now t d| | | | | | |]; try done. intros _.
  unfold issued_by. simpl. unfold mbind, M_bind. rewrite add_task_run.
  destruct (TaskService.validate_title t) as [e|vt]; [done|].
  destruct (TaskService.validate_description d) as [e|vd]; [done|].
  intros _. simpl. by rewrite list_lookup_middle.
Qed.

(** The ids handed out along a sequence are consecutive from the counter's
    starting value, and the counter ends one past the last of them. *)
Lemma issued_consecutive ops w :
  issued ops w = seqZ (_next_id w) (len (issued ops w)) ∧
  _next_id (run ops w) = _next_id w + len (issued ops w).
Proof.
  unfold len. revert w. induction ops as [|o ops IH]; intros w.
  - split; [done | simpl; lia].
  - change (run (o :: ops) w) with (run ops (step w o)).
    cbn [issued]. destruct (IH (step w o)) as [Hi Hn].
    destruct (issued_by_cases w o) as [[-> Hs] | [-> Hs]];
      rewrite Hs in Hi, Hn; simpl (option_list _); simpl (_ ++ _); [done|].
    simpl (length _).
    split; [|lia].
    rewrite seqZ_cons by lia. f_equal.
    rewrite Hi at 1. f_equal; lia.
Qed.

Lemma next_id_monotone ops w : _next_id w ≤ _next_id (run ops w).
Proof. destruct (issued_consecutive ops w) as [_ ->]. unfold len. lia. Qed.

Lemma issued_below_next_id ops w i :
  i ∈ issued ops w → _next_id w ≤ i < _next_id (run ops w).
Proof.
  destruct (issued_consecutive ops w) as [Hi Hn]. intros Hin.
  rewrite Hi in Hin. apply elem_of_seqZ in Hin. rewrite Hn. lia.
Qed.

(** C2. Along every sequence of service calls on a new repository: the
    counter is strictly greater than every id handed out so far, whether
    its task was deleted since or not; the counter never decreases; and no
    later [Add] returns an id that an earlier one returned. *)
Theorem ids_never_reissued (ops : list op) :
  (∀ i, i ∈ issued ops TaskRepository.init →
        i < _next_id (run ops TaskRepository.init)) ∧
  (∀ ops1 ops2, ops = ops1 ++ ops2 →
        _next_id (run ops1 TaskRepository.init)
        ≤ _next_id (run ops TaskRepository.init)) ∧
  (∀ ops1 o ops2 i, ops = ops1 ++ o :: ops2 →
        i ∈ issued ops1 TaskRepository.init →
        issued_by o (run ops1 TaskRepository.init) ≠ Some i) ∧
  NoDup (issued ops TaskRepository.init).
Proof.
  split_and!.
  - intros i Hi. by apply issued_below_next_id in Hi as [_ ?].
  - intros ops1 ops2 ->. rewrite run_app. apply next_id_monotone.
  - intros ops1 o ops2 i -> Hi Ho.
    apply issued_below_next_id in Hi as [_ Hi].
    destruct (issued_by_cases (run ops1 TaskRepository.init) o)
      as [[Hn _] | [Hs _]]; [congruence|].
    rewrite Hs in Ho. injection Ho as <-. lia.
  - destruct (issued_consecutive ops TaskRepository.init) as [-> _].
    apply NoDup_seqZ.
Qed.

(** The scenario of the specification: the id of a deleted task is not
    handed out again. *)
Lemma ids_never_reissued_witness :
  issued_by (Add 2 (py "Finish project") [])
            (run [Add 0 (py "Buy groceries") (py "Milk, eggs, bread");
                  Add 1 (py "Call dentist") []; Delete 1]
                 TaskRepository.init)
  ≠ Some 1.
Proof.
  refine (proj1 (proj2 (proj2
    (ids_never_reissued
       [Add 0 (py "Buy groceries") (py "Milk, eggs, bread");
        Add 1 (py "Call dentist") []; Delete 1;
        Add 2 (py "Finish project") []])))
    [Add 0 (py "Buy groceries") (py "Milk, eggs, bread");
     Add 1 (py "Call dentist") []; Delete 1]
    (Add 2 (py "Finish project") []) [] 1 eq_refl _).
  vm_compute. apply list_elem_of_here.
Defined.

(** C3. When every call of a sequence on a new repository is an [Add] that
    returns, the ids of the returned tasks are 1, 2, 3, ... in order. *)
Theorem add_ids_sequential (ops : list op) :
  Forall is_add ops →
  Forall returned (outcomes ops TaskRepository.init) →
  issued ops TaskRepository.init = seqZ 1 (len ops).
Proof.
  intros Hadd Hret.
  destruct (issued_consecutive ops TaskRepository.init) as [-> _].
  change (_next_id TaskRepository.init) with 1. f_equal. unfold len. f_equal.
  generalize dependent TaskRepository.init.
  induction Hadd as [|o ops Ho Hadd IH]; intros w Hret; [done|].
  simpl in Hret. apply Forall_cons in Hret as [Hr Hret].
  simpl. rewrite (add_returned_issued _ _ Ho Hr). simpl.
  by rewrite (IH _ Hret).
Qed.

Lemma add_ids_sequential_witness :
  issued [Add 0 (py "Buy groceries") (py "Milk, eggs, bread");
          Add 1 (py " Call dentist ") []; Add 2 (py "Finish project") []]
         TaskRepository.init
  = [1; 2; 3].
Proof.
  apply (add_ids_sequential
           [Add 0 (py "Buy groceries") (py "Milk, eggs, bread");
            Add 1 (py " Call dentist ") []; Add 2 (py "Finish project") []]).
  - repeat constructor.
  - vm_compute. repeat constructor.
Defined.

(** ** The invariant of the reachable states *)

Lemma wf_init : wf TaskRepository.init.
Proof. intros k l H. simpl in H. by rewrite lookup_empty in H. Qed.

Lemma wf_step w o : wf w → wf (step w o).
Proof.
  intros Hwf.
  destruct (step_cases w o)
    as [(Ht&_&_&Him) | [(?&?&?&?&?&_&_&->) | (?&?&_&_&->)]]; intros k l Hk.
  - rewrite Ht in Hk. destruct (Hwf _ _ Hk) as (o1 & Hl & Hid).
    destruct (Him _ _ Hl) as (o2 & Hl2 & Hid2 & _).
    exists o2. split; [done|congruence].
  - simpl in Hk. apply lookup_insert_Some in Hk as [[<- <-] | [_ Hk]].
    + eexists. split; [by apply list_lookup_middle | done].
    + destruct (Hwf _ _ Hk) as (o1 & Hl & Hid).
      exists o1. split; [by apply lookup_app_l_Some | done].
  - simpl in Hk. apply lookup_delete_Some in Hk as [_ Hk]. by apply Hwf.
Qed.

Lemma wf_run ops w : wf w → wf (run ops w).
Proof.
  revert w. induction ops as [|o ops IH]; intros w Hwf; [done|].
  apply IH, wf_step, Hwf.
Qed.

Lemma wf_reachable w : reachable w → wf w.
Proof. intros [ops <-]. apply wf_run, wf_init. Qed.

(** ** Listing *)

(** A traversal whose every step returns without writing returns the list
    of what the steps returned. *)
Lemma mapM_read {A B} (f : A → M B) (xs : list A) (ys : list B) w :
  Forall2 (λ x y, f x w = (w, inr y)) xs ys → mapM f xs w = (w, inr ys).
Proof.
  induction 1 as [|x y xs ys Hxy _ IH]; [done|].
  simpl. unfold mbind, M_bind in *. by rewrite Hxy, IH.
Qed.

Lemma get_all_tasks_run w :
  wf w →
  TaskRepository.get_all_tasks w
  = (w, inr ((merge_sort TaskRepository.key_le (map_to_list (_tasks w))).*2)).
Proof.
  intros Hwf. unfold TaskRepository.get_all_tasks.
  unfold mbind at 1, M_bind at 1, get_world.
  unfold mbind at 1, M_bind at 1.
  rewrite (mapM_read _ _ (map_to_list (_tasks w))); [done|].
  apply Forall2_fmap_l, Forall_Forall2_diag, Forall_forall.
  intros [k l] Hkl. apply elem_of_map_to_list in Hkl.
  destruct (Hwf _ _ Hkl) as (o & Hl & Hid).
  unfold_M. simpl. by rewrite Hl, Hid.
Qed.

Global Instance key_le_total : Total TaskRepository.key_le.
Proof. intros a b. unfold TaskRepository.key_le. lia. Qed.

Global Instance key_le_trans : Transitive TaskRepository.key_le.
Proof. intros a b c. unfold TaskRepository.key_le. lia. Qed.

(** In a list sorted on keys that are pairwise distinct, the keys ascend
    strictly. *)
Lemma sorted_distinct_keys (kls : list (Z * nat)) :
  StronglySorted TaskRepository.key_le kls → NoDup kls.*1 →
  StronglySorted Z.lt kls.*1.
Proof.
  induction 1 as [|[k l] kls Hs IH Hall]; intros Hnd; simpl; constructor.
  - apply IH. by apply NoDup_cons in Hnd as [_ ?].
  - apply NoDup_cons in Hnd as [Hnotin _].
    apply Forall_fmap, Forall_forall. intros [k' l'] Hin.
    rewrite Forall_forall in Hall. specialize (Hall _ Hin).
    unfold TaskRepository.key_le in Hall. simpl in *.
    assert (k ≠ k'); [|lia].
    intros ->. apply Hnotin. apply list_elem_of_fmap. by exists (k', l').
Qed.

Lemma ids_of_entries w (kls : list (Z * nat)) :
  wf w → kls ⊆ map_to_list (_tasks w) → ids_of w kls.*2 = kls.*1.
Proof.
  intros Hwf. unfold ids_of.
  induction kls as [|[k l] kls IH]; intros Hsub; [done|].
  assert (_tasks w !! k = Some l) as Hk.
  { apply elem_of_map_to_list, Hsub. left. }
  destruct (Hwf _ _ Hk) as (o & Hl & Hid).
  csimpl. rewrite Hl. csimpl. rewrite Hid, IH; [done|].
  intros x Hx. apply Hsub. by right.
Qed.

(** In a state that satisfies the invariant the listing returns, and every
    reference in it leads to an object. *)
Lemma list_all_entries w :
  wf w →
  ∃ tasks, TaskService.get_all_tasks w = (w, inr tasks) ∧
           Forall (λ l, is_Some (heap w !! l)) tasks.
Proof.
  intros Hwf. eexists. split; [by apply get_all_tasks_run|].
  apply Forall_fmap, Forall_forall. intros [k l] Hkl.
  rewrite merge_sort_Permutation in Hkl. apply elem_of_map_to_list in Hkl.
  destruct (Hwf _ _ Hkl) as (o & Hl & _). by exists o.
Qed.

(** C7. In every reachable state [get_all_tasks] returns, without raising:
    the list it returns is the stored tasks, each once, their ids ascend
    strictly along it, and it is empty when the repository is empty. *)
Theorem list_all_sorted (w : World) :
  reachable w →
  ∃ tasks,
    TaskService.get_all_tasks w = (w, inr tasks) ∧
    tasks ≡ₚ values w ∧
    length (ids_of w tasks) = length tasks ∧
    StronglySorted Z.lt (ids_of w tasks) ∧
    (_tasks w = ∅ → tasks = []).
Proof.
  intros Hwf%wf_reachable.
  unfold TaskService.get_all_tasks. rewrite (get_all_tasks_run _ Hwf).
  set (kls := merge_sort TaskRepository.key_le (map_to_list (_tasks w))).
  assert (kls ≡ₚ map_to_list (_tasks w)) as Hperm
    by apply merge_sort_Permutation.
  assert (ids_of w kls.*2 = kls.*1) as Hids.
  { apply ids_of_entries; [done|]. intros x. by rewrite Hperm. }
  exists kls.*2. split_and!.
  - done.
  - unfold values. by rewrite Hperm.
  - by rewrite Hids, !length_fmap.
  - rewrite Hids. apply sorted_distinct_keys.
    + apply StronglySorted_merge_sort; apply _.
    + rewrite Hperm. apply NoDup_fst_map_to_list.
  - intros Hempty. rewrite Hempty, map_to_list_empty in Hperm.
    apply Permutation_nil_r in Hperm. by rewrite Hperm.
Qed.

Lemma reachable_scenario : reachable w_scenario.
Proof. by exists scenario. Defined.

Lemma list_all_sorted_witness :
  ∃ tasks,
    TaskService.get_all_tasks w_scenario = (w_scenario, inr tasks) ∧
    tasks ≡ₚ values w_scenario ∧
    length (ids_of w_scenario tasks) = length tasks ∧
    StronglySorted Z.lt (ids_of w_scenario tasks) ∧
    (_tasks w_scenario = ∅ → tasks = []).
Proof. exact (list_all_sorted w_scenario reachable_scenario). Defined.

(** ** Statistics *)

Lemma count_flags {A} (f : A → bool) (l : list A) :
  foldr (λ (b : bool) acc, if b then 1 + acc else acc) 0 (f <$> l)
  = len (filter (λ x, f x = true) l).
Proof.
  unfold len. induction l as [|x l IH]; [done|].
  csimpl. rewrite IH, filter_cons.
  destruct (f x); case_decide; try done. simpl length. lia.
Qed.

Lemma get_statistics_run w tasks :
  TaskService.get_all_tasks w = (w, inr tasks) →
  Forall (λ l, is_Some (heap w !! l)) tasks →
  TaskService.get_statistics w
  = (w, inr (len tasks,
             len (filter (λ t, is_complete_at w t = true) tasks),
             len tasks - len (filter (λ t, is_complete_at w t = true) tasks))).
Proof.
  intros Hall Hheap. unfold TaskService.get_statistics.
  unfold mbind at 1, M_bind at 1. rewrite Hall.
  unfold mbind at 1, M_bind at 1.
  rewrite (mapM_read _ _ (is_complete_at w <$> tasks)).
  - unfold mret, M_ret. by rewrite count_flags.
  - apply Forall2_fmap_r, Forall_Forall2_diag.
    eapply Forall_impl; [exact Hheap|]. intros l [o Hl].
    unfold compose, call, is_complete_at. by rewrite Hl.
Qed.

(** [is_complete] answers true exactly for an object whose [status] field
    is [COMPLETE]. *)
Lemma is_complete_at_status w t :
  is_complete_at w t = true ↔ status_at w t = Some COMPLETE.
Proof.
  unfold is_complete_at, status_at.
  destruct (heap w !! t) as [o|]; simpl; [|done].
  rewrite is_complete_status. split; [by intros -> | by intros [= ->]].
Qed.

(** C5. In every reachable state [get_statistics] returns a triple
    [(total, completed, remaining)] with [completed + remaining = total],
    [total] the length of what [get_all_tasks] returns, and [completed] the
    number of listed tasks whose [status] field is [COMPLETE]. *)
Theorem statistics_consistent (w : World) :
  reachable w →
  ∃ tasks total completed remaining,
    TaskService.get_all_tasks w = (w, inr tasks) ∧
    TaskService.get_statistics w = (w, inr (total, completed, remaining)) ∧
    completed + remaining = total ∧
    total = len tasks ∧
    completed = len (filter (λ t, status_at w t = Some COMPLETE) tasks).
Proof.
  intros Hr. pose proof (wf_reachable _ Hr) as Hwf.
  destruct (list_all_entries w Hwf) as (tasks & Hall & Hheap).
  eexists tasks, _, _, _. split; [done|].
  split; [by apply get_statistics_run|]. split_and!; [lia|done|].
  f_equal. f_equal. apply list_filter_iff. intros t.
  apply is_complete_at_status.
Qed.

Lemma reachable_done : reachable w_done.
Proof. by exists (scenario ++ [MarkComplete 2]). Defined.

(** Two tasks are listed and one of them is complete. *)
Lemma statistics_consistent_witness :
  ∃ tasks,
    TaskService.get_all_tasks w_done = (w_done, inr tasks) ∧
    TaskService.get_statistics w_done = (w_done, inr (2, 1, 1)) ∧
    len (filter (λ t, status_at w_done t = Some COMPLETE) tasks) = 1.
Proof.
  destruct (statistics_consistent w_done reachable_done)
    as (tasks & total & completed & remaining & Hall & Hstat & Hsum & Ht & Hc).
  exists tasks.
  assert (tasks = [1%nat; 2%nat]) as Htasks.
  { assert (TaskService.get_all_tasks w_done = (w_done, inr [1%nat; 2%nat]))
      as E by (by vm_compute).
    rewrite E in Hall. by injection Hall as <-. }
  rewrite Htasks in Ht, Hc |- *.
  assert (total = 2) as -> by (by rewrite Ht).
  assert (completed = 1) as -> by (by rewrite Hc).
  assert (remaining = 1) as -> by lia.
  split_and!; [by vm_compute | done | by vm_compute].
Defined.

(** * Further properties *)

(** ** Trimming, continued *)

Lemma lstrip_head (s : str) :
  lstrip s = [] ∨ ∃ c r, lstrip s = c :: r ∧ isspace c = false.
Proof.
  induction s as [|c s IH]; simpl; [by left|].
  destruct (isspace c) eqn:Hc; [done|]. right. by exists c, s.
Qed.

Lemma lstrip_nonspace c (s : str) : isspace c = false → lstrip (c :: s) = c :: s.
Proof. intros Hc. simpl. by rewrite Hc. Qed.

Lemma lstrip_idemp (s : str) : lstrip (lstrip s) = lstrip s.
Proof.
  destruct (lstrip_head s) as [-> | (c & r & -> & Hc)]; [done|].
  by apply lstrip_nonspace.
Qed.

Lemma lstrip_app_nonspace (s : str) c :
  isspace c = false → lstrip (s ++ [c]) = lstrip s ++ [c].
Proof.
  intros Hc. induction s as [|x s IH]; simpl.
  - by rewrite Hc.
  - by destruct (isspace x).
Qed.

Lemma rstrip_cons_nonspace c (s : str) :
  isspace c = false → rstrip (c :: s) = c :: rstrip s.
Proof.
  intros Hc. unfold rstrip.
  by rewrite reverse_cons, lstrip_app_nonspace, reverse_app.
Qed.

Lemma rstrip_idemp (s : str) : rstrip (rstrip s) = rstrip s.
Proof. unfold rstrip. by rewrite reverse_involutive, lstrip_idemp. Qed.

Lemma lstrip_strip (s : str) : lstrip (strip s) = strip s.
Proof.
  unfold strip. destruct (lstrip_head s) as [-> | (c & r & -> & Hc)]; [done|].
  rewrite rstrip_cons_nonspace by done. by apply lstrip_nonspace.
Qed.

Lemma strip_idemp (s : str) : strip (strip s) = strip s.
Proof.
  unfold strip at 1. rewrite lstrip_strip. unfold strip. apply rstrip_idemp.
Qed.

Lemma lstrip_length (s : str) : (length (lstrip s) ≤ length s)%nat.
Proof.
  induction s as [|c s IH]; simpl; [done|].
  destruct (isspace c); simpl; lia.
Qed.

Lemma strip_length (s : str) : len (strip s) ≤ len s.
Proof.
  unfold len, strip, rstrip. rewrite length_reverse.
  pose proof (lstrip_length (reverse (lstrip s))) as H1.
  rewrite length_reverse in H1. pose proof (lstrip_length s). lia.
Qed.

(** ** validate_description *)

Lemma validate_title_error title e :
  TaskService.validate_title title = inl e → ∃ msg, e = ValidationError msg.
Proof.
  unfold TaskService.validate_title.
  destruct (negb (truthy title) || negb (truthy (strip title)));
    [intros [= <-]; eauto|].
  simpl. destruct (200 <? len (strip title)); [intros [= <-]; eauto | done].
Qed.

Lemma validate_description_error description e :
  TaskService.validate_description description = inl e →
  ∃ msg, e = ValidationError msg.
Proof.
  unfold TaskService.validate_description.
  destruct (negb (truthy description)); [done|].
  simpl. destruct (500 <? len (strip description)); [intros [= <-]; eauto | done].
Qed.

Lemma validate_title_returns title v :
  TaskService.validate_title title = inr v →
  v = strip title ∧ v ≠ [] ∧ len v ≤ 200.
Proof.
  unfold TaskService.validate_title.
  destruct (truthy title); simpl; [|done].
  destruct (truthy (strip title)) eqn:Hs; simpl; [|done].
  destruct (Z.ltb_spec 200 (len (strip title))); [done|].
  intros [= <-]. split_and!; [done| |done].
  intros E. by rewrite E in Hs.
Qed.

Lemma validate_description_returns description v :
  TaskService.validate_description description = inr v →
  v = strip description ∧ len v ≤ 500.
Proof.
  unfold TaskService.validate_description.
  destruct description as [|c s]; simpl.
  - intros [= <-]. by vm_compute.
  - destruct (Z.ltb_spec 500 (len (strip (c :: s)))); [done|].
    by intros [= <-].
Qed.

(** [validate_description] never rejects a text for being empty or blank:
    it raises, and then [ValidationError], exactly when the trimmed length
    exceeds 500, and otherwise returns the trimmed text, which is empty for
    an empty or white-space-only description. *)
Theorem validate_description_spec (description : str) :
  ((∃ msg, TaskService.validate_description description
           = inl (ValidationError msg)) ↔
     500 < len (strip description)) ∧
  (TaskService.validate_description description = inr (strip description) ↔
     len (strip description) ≤ 500) ∧
  (∀ e, TaskService.validate_description description = inl e →
        ∃ msg, e = ValidationError msg) ∧
  (whitespace_only description →
     TaskService.validate_description description = inr []).
Proof.
  assert (description = [] → strip description = []) as Hnil by (by intros ->).
  unfold TaskService.validate_description.
  destruct description as [|c s]; simpl.
  - rewrite Hnil by done. unfold len. simpl.
    split_and!; [split; [by intros [? ?] | lia] | done | done | done].
  - clear Hnil.
    destruct (Z.ltb_spec 500 (len (strip (c :: s)))) as [Hlen|Hlen].
    + split_and!; [split; eauto | split; [done|lia] | intros e [= <-]; eauto |].
      intros Hw%strip_nil. rewrite Hw in Hlen. unfold len in Hlen.
      simpl in Hlen. lia.
    + split_and!; [split; [by intros [? ?] | lia] | done | done |].
      intros Hw%strip_nil. by rewrite Hw.
Qed.

Lemma validate_description_spec_witness :
  TaskService.validate_description (py "   ") = inr [].
Proof.
  apply (validate_description_spec (py "   ")).
  repeat constructor.
Defined.

(** What the two validators return is in normal form: validating it again
    returns it unchanged.  So a title or description read back from a task
    and passed to [update_task] is never rejected and never counts as a
    change. *)
Theorem validation_idempotent (raw v : str) :
  (TaskService.validate_title raw = inr v →
     TaskService.validate_title v = inr v) ∧
  (TaskService.validate_description raw = inr v →
     TaskService.validate_description v = inr v).
Proof.
  split; intros H.
  - apply validate_title_returns in H as (-> & Hne & Hlen).
    unfold TaskService.validate_title. rewrite strip_idemp.
    destruct (strip raw) as [|c s] eqn:E; [done|]. simpl.
    destruct (Z.ltb_spec 200 (len (c :: s))); [lia|done].
  - apply validate_description_returns in H as (-> & Hlen).
    unfold TaskService.validate_description. rewrite strip_idemp.
    destruct (strip raw) as [|c s] eqn:E; [done|]. simpl.
    destruct (Z.ltb_spec 500 (len (c :: s))); [lia|done].
Qed.

Lemma validation_idempotent_witness :
  TaskService.validate_title (py "Call dentist") = inr (py "Call dentist").
Proof.
  apply (validation_idempotent (py "  Call dentist ") (py "Call dentist")).
  reflexivity.
Defined.

(** ** update_task on a stored task *)

Lemma write_same w task o : heap w !! task = Some o → write w task o = w.
Proof.
  intros Hl. unfold write. rewrite list_insert_id by done. by destruct w.
Qed.

Lemma write_write w task o o' :
  write (write w task o) task o' = write w task o'.
Proof. unfold write. simpl. by rewrite list_insert_insert_eq. Qed.

Lemma stored_after_write w task_id task o o' :
  stored w task_id task o → stored (write w task o') task_id task o'.
Proof. apply stored_write. Qed.

Lemma updated_none o : updated None None o = o.
Proof. by destruct o. Qed.

Lemma updated_title_same o vd :
  updated (Some (Task.title o)) vd o = updated None vd o.
Proof. done. Qed.

Lemma updated_description_same o vt :
  updated vt (Some (Task.description o)) o = updated vt None o.
Proof. done. Qed.

(** The first half of [update_task]: the title. *)
Lemma update_title_phase w task o (new_title : option str) (k : bool → M (option loc * bool)) :
  heap w !! task = Some o →
  (match new_title with
   | Some new_title =>
       validated_title ← lift (TaskService.validate_title new_title);
       current ← call (Some task) "title" Task.title;
       if bool_decide (validated_title ≠ current) return M bool then
         invoke (Some task) "update_title" (Task.update_title validated_title);;
         mret true
       else mret false
   | None => mret false
   end ≫= k) w
  = match validate_opt TaskService.validate_title new_title with
    | inl e => (w, inl e)
    | inr vt =>
        k (bool_decide (default (Task.title o) vt ≠ Task.title o))
          (write w task (updated vt None o))
    end.
Proof.
  intros Hl. unfold_M. destruct new_title as [t|]; simpl.
  - destruct (TaskService.validate_title t) as [e|v]; [done|].
    rewrite Hl. destruct (decide (v = Task.title o)) as [->|Hv].
    + rewrite !bool_decide_eq_false_2 by (by intros H).
      by rewrite updated_title_same, updated_none, write_same.
    + rewrite !bool_decide_eq_true_2 by done. simpl. by rewrite Hl.
  - rewrite bool_decide_eq_false_2 by (by intros H).
    by rewrite updated_none, write_same.
Qed.

(** What [update_task] does on a stored task, in full: the title is
    validated and written, then the description. *)
Lemma update_task_stored w task_id task o new_title new_description :
  stored w task_id task o →
  TaskService.update_task task_id new_title new_description w =
    match validate_opt TaskService.validate_title new_title with
    | inl e => (w, inl e)
    | inr vt =>
        match validate_opt TaskService.validate_description new_description with
        | inl e => (write w task (updated vt None o), inl e)
        | inr vd =>
            (write w task (updated vt vd o),
             inr (Some task,
                  bool_decide (default (Task.title o) vt ≠ Task.title o) ||
                  bool_decide (default (Task.description o) vd
                               ≠ Task.description o)))
        end
    end.
Proof.
  intros [Hk Hl]. unfold TaskService.update_task, TaskRepository.get_task.
  unfold mbind at 1, M_bind at 1. rewrite (validate_task_id_stored _ _ _ Hk).
  unfold mbind at 1, M_bind at 1. unfold mbind at 1, M_bind at 1.
  unfold get_world, mret at 1, M_ret at 1. rewrite Hk.
  rewrite (update_title_phase _ _ _ _ _ Hl).
  destruct (validate_opt TaskService.validate_title new_title) as [e|vt]; [done|].
  set (o1 := updated vt None o).
  assert (heap (write w task o1) !! task = Some o1) as Hl1
    by (by eapply heap_insert_eq).
  unfold_M. destruct new_description as [d|]; simpl.
  - destruct (TaskService.validate_description d) as [e|v]; [done|].
    rewrite (heap_insert_eq _ _ _ _ Hl). simpl.
    destruct (decide (v = Task.description o)) as [->|Hv].
    + rewrite !bool_decide_eq_false_2 by (by intros H).
      by rewrite orb_false_r.
    + rewrite !bool_decide_eq_true_2 by done. simpl.
      rewrite (heap_insert_eq _ _ _ _ Hl).
      rewrite list_insert_insert_eq, orb_true_r. done.
  - rewrite (bool_decide_eq_false_2 (Task.description o ≠ _)) by (by intros H).
    by rewrite orb_false_r.
Qed.

(** ** Missing identifiers *)

Lemma validate_task_id_not_found w k :
  _tasks w !! k = None → TaskService.validate_task_id k w = (w, inl (not_found k)).
Proof. apply validate_task_id_missing. Qed.

(** Every operation that takes an id raises [TaskNotFoundError], with the
    message [Task ID <id> not found], when no task is stored under the id,
    and leaves the state as it was.  For [update_task] this comes before
    any validation: an invalid title for a missing id is reported as
    not found. *)
Theorem missing_id_not_found w task_id :
  _tasks w !! task_id = None →
  TaskService.get_task task_id w = (w, inl (not_found task_id)) ∧
  (∀ new_title new_description,
     TaskService.update_task task_id new_title new_description w
     = (w, inl (not_found task_id))) ∧
  TaskService.delete_task task_id w = (w, inl (not_found task_id)) ∧
  TaskService.mark_complete task_id w = (w, inl (not_found task_id)) ∧
  TaskService.mark_incomplete task_id w = (w, inl (not_found task_id)).
Proof.
  intros Hk. pose proof (validate_task_id_not_found _ _ Hk) as Hv.
  unfold TaskService.get_task, TaskService.update_task,
    TaskService.delete_task, TaskService.mark_complete,
    TaskService.mark_incomplete.
  split_and!; intros; unfold mbind at 1, M_bind at 1; by rewrite Hv.
Qed.

(** The scenario of the specification: [get(999)] on a new repository. *)
Lemma missing_id_not_found_witness :
  TaskService.get_task 999 TaskRepository.init
  = (TaskRepository.init, inl (TaskNotFoundError "Task ID 999 not found")).
Proof.
  exact (proj1 (missing_id_not_found TaskRepository.init 999 eq_refl)).
Defined.

(** ** Operations that only read *)

Lemma task_exists_reads k : preserves eq (TaskRepository.task_exists k).
Proof. unfold TaskRepository.task_exists. effects. Qed.

Lemma validate_task_id_reads k : preserves eq (TaskService.validate_task_id k).
Proof.
  unfold TaskService.validate_task_id, TaskRepository.task_exists. effects.
Qed.

Lemma get_all_tasks_reads : preserves eq TaskRepository.get_all_tasks.
Proof. unfold TaskRepository.get_all_tasks. effects. Qed.

(** The reading operations of the repository and of the service leave the
    state exactly as it was, in every state and whether they return or
    raise: existence check, next id, fetch, listing and statistics. *)
Theorem reads_leave_state (w : World) (task_id : Z) :
  (TaskRepository.task_exists task_id w).1 = w ∧
  (TaskRepository.get_next_id w).1 = w ∧
  (TaskRepository.get_task task_id w).1 = w ∧
  (TaskRepository.get_all_tasks w).1 = w ∧
  (TaskService.validate_task_id task_id w).1 = w ∧
  (TaskService.get_task task_id w).1 = w ∧
  (TaskService.get_all_tasks w).1 = w ∧
  (TaskService.get_statistics w).1 = w.
Proof.
  pose proof (validate_task_id_reads task_id) as Hv.
  pose proof get_all_tasks_reads as Ha.
  split_and!; symmetry.
  - by apply task_exists_reads.
  - done.
  - done.
  - by apply Ha.
  - by apply Hv.
  - revert w. change (preserves eq (TaskService.get_task task_id)).
    unfold TaskService.get_task, TaskRepository.get_task. effects.
  - by apply Ha.
  - revert w. change (preserves eq TaskService.get_statistics).
    unfold TaskService.get_statistics, TaskService.get_all_tasks. effects.
Qed.

(** ** add_task *)

(** An [add_task] that raises leaves the state as it was, so the counter
    is not advanced and no id is used up.  What it raises is the
    [ValidationError] of the title if the title is invalid, and otherwise
    that of the description. *)
Theorem add_task_rejected now title description w w' e :
  TaskService.add_task now title description w = (w', inl e) →
  w' = w ∧
  (∃ msg, e = ValidationError msg) ∧
  (TaskService.validate_title title = inl e ∨
   (∃ vt, TaskService.validate_title title = inr vt) ∧
   TaskService.validate_description description = inl e).
Proof.
  rewrite add_task_run.
  destruct (TaskService.validate_title title) as [e1|vt] eqn:Ht.
  - intros [= <- <-]. split_and!; [done| |by left].
    by eapply validate_title_error.
  - destruct (TaskService.validate_description description) as [e2|vd] eqn:Hd;
      [|done].
    intros [= <- <-]. split_and!; [done| |right; eauto].
    by eapply validate_description_error.
Qed.

(** An empty title together with a description of 501 characters: the
    title is the one reported. *)
Lemma add_task_rejected_witness :
  TaskService.validate_title [] = inl (ValidationError "Task title cannot be empty") ∨
  (∃ vt, TaskService.validate_title [] = inr vt) ∧
  TaskService.validate_description (long_text 501)
  = inl (ValidationError "Task title cannot be empty").
Proof.
  refine (proj2 (proj2 (add_task_rejected 0 [] (long_text 501) w_one w_one
                          (ValidationError "Task title cannot be empty") _))).
  by vm_compute.
Defined.

(** ** Invariants of the reachable states, continued *)

Lemma counted_step w o : counted w → counted (step w o).
Proof.
  intros [Hn Hids].
  destruct (step_cases w o)
    as [(_&Hn'&Hlen&Him) | [(?&?&?&?&?&_&_&->) | (?&?&_&_&->)]].
  - split; [unfold len in *; lia|].
    intros i o' Hi.
    destruct (lookup_lt_is_Some_2 (heap w) i) as [o0 H0].
    { rewrite <- Hlen. by eapply lookup_lt_Some. }
    destruct (Him _ _ H0) as (o1 & H1 & Hid & _).
    assert (o1 = o') as -> by congruence. rewrite Hid. by apply Hids.
  - unfold len in Hn. split; simpl.
    + unfold len. rewrite length_app. simpl. lia.
    + intros i o' Hi. apply lookup_app_Some in Hi as [Hi | [Hge Hi]].
      * by apply Hids.
      * destruct (i - length (heap w))%nat as [|n] eqn:E; [|done].
        simpl in Hi. injection Hi as <-. simpl. lia.
  - done.
Qed.

Lemma counted_init : counted TaskRepository.init.
Proof. split; [done|]. intros i o H. by destruct i. Qed.

Lemma counted_run ops w : counted w → counted (run ops w).
Proof.
  revert w. induction ops as [|o ops IH]; intros w Hw; [done|].
  apply IH, counted_step, Hw.
Qed.

Lemma counted_reachable w : reachable w → counted w.
Proof. intros [ops <-]. apply counted_run, counted_init. Qed.

Lemma keys_in_range w k l :
  wf w → counted w → _tasks w !! k = Some l → 1 ≤ k < _next_id w.
Proof.
  intros Hwf [Hn Hids] Hk. destruct (Hwf _ _ Hk) as (o & Hl & <-).
  rewrite (Hids _ _ Hl), Hn. apply lookup_lt_Some in Hl. unfold len. lia.
Qed.

Lemma next_id_free w : wf w → counted w → _tasks w !! _next_id w = None.
Proof.
  intros Hwf Hc. destruct (_tasks w !! _next_id w) as [l|] eqn:Hk; [|done].
  pose proof (keys_in_range _ _ _ Hwf Hc Hk). lia.
Qed.

(** In every reachable state the counter is at least 1, every id a task is
    stored under is at least 1 and below the counter, and nothing is stored
    under the counter's value: the id the next [add_task] takes is not in
    use, so [add_task] never overwrites an entry. *)
Theorem stored_ids_below_counter (w : World) :
  reachable w →
  1 ≤ _next_id w ∧
  (∀ k, is_Some (_tasks w !! k) → 1 ≤ k < _next_id w) ∧
  _tasks w !! _next_id w = None.
Proof.
  intros Hr. pose proof (wf_reachable _ Hr) as Hwf.
  pose proof (counted_reachable _ Hr) as Hc.
  split_and!.
  - destruct Hc as [-> _]. unfold len. lia.
  - intros k [l Hk]. by eapply keys_in_range.
  - by apply next_id_free.
Qed.

Lemma stored_ids_below_counter_witness :
  1 ≤ _next_id w_scenario ∧
  (∀ k, is_Some (_tasks w_scenario !! k) → 1 ≤ k < _next_id w_scenario) ∧
  _tasks w_scenario !! _next_id w_scenario = None.
Proof. exact (stored_ids_below_counter w_scenario reachable_scenario). Defined.

(** ** add_task, delete_task and update_task when they return *)

Lemma get_task_stored w k l :
  _tasks w !! k = Some l → TaskService.get_task k w = (w, inr (Some l)).
Proof. intros Hk. unfold TaskService.get_task. enter_stored Hk. done. Qed.

Lemma not_found_bind {A} k (f : () → M A) w :
  _tasks w !! k = None →
  (TaskService.validate_task_id k ≫= f) w = (w, inl (not_found k)).
Proof.
  intros Hk. unfold mbind, M_bind. by rewrite (validate_task_id_not_found _ _ Hk).
Qed.

(** In a reachable state, an [add_task] with a valid title and description
    returns a new task object: its id is the counter's value, its texts are
    the trimmed inputs, its status is [INCOMPLETE] and its [created_at] is
    the clock reading.  The task is stored under its id, [get_task] finds it
    there, the counter has advanced by one, and every task stored before is
    stored as before. *)
Theorem add_task_accepted now title description vt vd w :
  reachable w →
  TaskService.validate_title title = inr vt →
  TaskService.validate_description description = inr vd →
  ∃ w' task,
    TaskService.add_task now title description w = (w', inr task) ∧
    heap w !! task = None ∧
    stored w' (_next_id w) task (Task.mk (_next_id w) vt vd INCOMPLETE now) ∧
    TaskService.get_task (_next_id w) w' = (w', inr (Some task)) ∧
    _next_id w' = _next_id w + 1 ∧
    (∀ k l o, stored w k l o → stored w' k l o) ∧
    (∀ k, k ≠ _next_id w → _tasks w' !! k = _tasks w !! k).
Proof.
  intros Hr Ht Hd. pose proof (wf_reachable _ Hr) as Hwf.
  pose proof (counted_reachable _ Hr) as Hc.
  rewrite add_task_run, Ht, Hd. eexists _, _. split; [done|].
  assert (stored (added w (Task.init now (_next_id w) vt vd INCOMPLETE None))
            (_next_id w) (length (heap w))
            (Task.mk (_next_id w) vt vd INCOMPLETE now)) as Hst.
  { split; simpl; [by apply lookup_insert_eq | by apply list_lookup_middle]. }
  split_and!.
  - by apply lookup_ge_None.
  - done.
  - apply get_task_stored, Hst.
  - simpl. lia.
  - intros k l o [Hk Hl]. split; simpl.
    + rewrite lookup_insert_ne; [done|].
      pose proof (keys_in_range _ _ _ Hwf Hc Hk). lia.
    + by apply lookup_app_l_Some.
  - intros k Hne. simpl. by rewrite lookup_insert_ne.
Qed.

Lemma add_task_accepted_witness :
  ∃ w' task,
    TaskService.add_task 7 (py " Pay rent ") (py "") w_scenario = (w', inr task) ∧
    heap w_scenario !! task = None ∧
    stored w' (_next_id w_scenario) task
           (Task.mk (_next_id w_scenario) (py "Pay rent") [] INCOMPLETE 7) ∧
    TaskService.get_task (_next_id w_scenario) w' = (w', inr (Some task)) ∧
    _next_id w' = _next_id w_scenario + 1 ∧
    (∀ k l o, stored w_scenario k l o → stored w' k l o) ∧
    (∀ k, k ≠ _next_id w_scenario → _tasks w' !! k = _tasks w_scenario !! k).
Proof.
  exact (add_task_accepted 7 (py " Pay rent ") (py "") (py "Pay rent") []
           w_scenario reachable_scenario eq_refl eq_refl).
Defined.

(** [delete_task] on a stored task returns the task, whose fields can
    still be read, and removes only its entry: afterwards [get_task] and a
    second [delete_task] on the id raise [TaskNotFoundError], the other
    entries and the counter are as before. *)
Theorem delete_task_effect w task_id task o :
  stored w task_id task o →
  ∃ w', TaskService.delete_task task_id w = (w', inr (Some task)) ∧
        heap w' = heap w ∧
        _tasks w' !! task_id = None ∧
        TaskService.get_task task_id w' = (w', inl (not_found task_id)) ∧
        TaskService.delete_task task_id w' = (w', inl (not_found task_id)) ∧
        (∀ k, k ≠ task_id → _tasks w' !! k = _tasks w !! k) ∧
        _next_id w' = _next_id w.
Proof.
  intros [Hk Hl]. rewrite delete_task_run, Hk. eexists. split; [done|].
  assert (_tasks (removed w task_id) !! task_id = None) as Hgone
    by apply lookup_delete_eq.
  split_and!; [done|done| | | |done].
  - unfold TaskService.get_task. by apply not_found_bind.
  - by rewrite delete_task_run, Hgone.
  - intros k Hne. simpl. by rewrite lookup_delete_ne.
Qed.

Lemma delete_task_effect_witness :
  ∃ w', TaskService.delete_task 1 w_one = (w', inr (Some 0%nat)) ∧
        heap w' = heap w_one ∧
        _tasks w' !! 1 = None ∧
        TaskService.get_task 1 w' = (w', inl (not_found 1)) ∧
        TaskService.delete_task 1 w' = (w', inl (not_found 1)) ∧
        (∀ k, k ≠ 1 → _tasks w' !! k = _tasks w_one !! k) ∧
        _next_id w' = _next_id w_one.
Proof. exact (delete_task_effect w_one 1 0%nat o_one stored_w_one). Defined.

(** [update_task] on a stored task with valid values for the provided
    fields returns the task with those fields replaced by the validated
    values and the others kept; [id], [status] and [created_at] are kept.
    [was_changed] is true exactly when the title or the description now
    differs from what it was, and when it is false the state is as it was.
    No other object, no entry and not the counter is touched. *)
Theorem update_task_accepted w task_id task o new_title new_description vt vd :
  stored w task_id task o →
  validate_opt TaskService.validate_title new_title = inr vt →
  validate_opt TaskService.validate_description new_description = inr vd →
  ∃ w' o' changed,
    TaskService.update_task task_id new_title new_description w
    = (w', inr (Some task, changed)) ∧
    stored w' task_id task o' ∧
    Task.title o' = default (Task.title o) vt ∧
    Task.description o' = default (Task.description o) vd ∧
    Task.id o' = Task.id o ∧ Task.status o' = Task.status o ∧
    Task.created_at o' = Task.created_at o ∧
    (changed = true ↔
       Task.title o' ≠ Task.title o ∨ Task.description o' ≠ Task.description o) ∧
    (changed = false → w' = w) ∧
    _tasks w' = _tasks w ∧ _next_id w' = _next_id w ∧
    (∀ l, l ≠ task → heap w' !! l = heap w !! l).
Proof.
  intros Hst Ht Hd. rewrite (update_task_stored _ _ _ _ _ _ Hst), Ht, Hd.
  eexists _, (updated vt vd o), _. split; [done|].
  split_and!; try done.
  - eapply stored_after_write, Hst.
  - rewrite orb_true_iff, !bool_decide_eq_true. done.
  - rewrite orb_false_iff, !bool_decide_eq_false. intros [H1 H2].
    apply dec_stable in H1, H2. destruct Hst as [_ Hl].
    replace (updated vt vd o) with o; [by apply write_same|].
    destruct o. unfold updated. simpl in *. by rewrite H1, H2.
  - intros l Hne. simpl. by rewrite list_lookup_insert_ne.
Qed.

Lemma update_task_accepted_witness :
  ∃ w' o' changed,
    TaskService.update_task 1 None (Some (py " soon ")) w_one
    = (w', inr (Some 0%nat, changed)) ∧
    stored w' 1 0%nat o' ∧
    Task.title o' = default (Task.title o_one) None ∧
    Task.description o' = default (Task.description o_one) (Some (py "soon")) ∧
    Task.id o' = Task.id o_one ∧ Task.status o' = Task.status o_one ∧
    Task.created_at o' = Task.created_at o_one ∧
    (changed = true ↔
       Task.title o' ≠ Task.title o_one ∨
       Task.description o' ≠ Task.description o_one) ∧
    (changed = false → w' = w_one) ∧
    _tasks w' = _tasks w_one ∧ _next_id w' = _next_id w_one ∧
    (∀ l, l ≠ 0%nat → heap w' !! l = heap w_one !! l).
Proof.
  exact (update_task_accepted w_one 1 0%nat o_one None (Some (py " soon "))
           None (Some (py "soon")) stored_w_one eq_refl eq_refl).
Defined.

(** ** Status transitions, continued *)

(** Marking a stored incomplete task complete and then incomplete again
    gives back exactly the state before the two calls, and so does marking
    a complete task incomplete and then complete. *)
Theorem mark_round_trip w task_id task o :
  stored w task_id task o →
  (Task.status o = INCOMPLETE →
     ∃ w1, TaskService.mark_complete task_id w = (w1, inr (Some task)) ∧
           TaskService.mark_incomplete task_id w1 = (w, inr (Some task))) ∧
  (Task.status o = COMPLETE →
     ∃ w1, TaskService.mark_incomplete task_id w = (w1, inr (Some task)) ∧
           TaskService.mark_complete task_id w1 = (w, inr (Some task))).
Proof.
  intros Hst. pose proof Hst as [_ Hl]. split; intros Hs.
  - pose proof (stored_write _ _ _ _ (Task.mark_complete o) Hst) as Hst1.
    rewrite (mark_complete_stored _ _ _ _ Hst).
    rewrite (proj2 (is_complete_incomplete o) Hs).
    eexists. split; [done|].
    rewrite (mark_incomplete_stored _ _ _ _ Hst1). simpl.
    rewrite list_insert_insert_eq.
    replace (Task.mark_incomplete (Task.mark_complete o)) with o
      by (destruct o; simpl in *; by subst).
    by rewrite <- (write_same _ _ _ Hl) at 4.
  - pose proof (stored_write _ _ _ _ (Task.mark_incomplete o) Hst) as Hst1.
    rewrite (mark_incomplete_stored _ _ _ _ Hst).
    rewrite (proj2 (is_complete_status o) Hs).
    eexists. split; [done|].
    rewrite (mark_complete_stored _ _ _ _ Hst1). simpl.
    rewrite list_insert_insert_eq.
    replace (Task.mark_complete (Task.mark_incomplete o)) with o
      by (destruct o; simpl in *; by subst).
    by rewrite <- (write_same _ _ _ Hl) at 4.
Qed.

Lemma mark_round_trip_witness :
  ∃ w1, TaskService.mark_complete 1 w_one = (w1, inr (Some 0%nat)) ∧
        TaskService.mark_incomplete 1 w1 = (w_one, inr (Some 0%nat)).
Proof.
  exact (proj1 (mark_round_trip w_one 1 0%nat o_one stored_w_one) eq_refl).
Defined.

(** ** What a call leaves and what it raises, case by case *)

Lemma fmap_state {A B} (f : A → B) (m : M A) w : ((f <$> m) w).1 = (m w).1.
Proof. unfold fmap, M_fmap, mbind, M_bind. by destruct (m w) as [w' [e|x]]. Qed.

Lemma fmap_raised {A B} (f : A → B) (m : M A) w e :
  ((f <$> m) w).2 = inl e → (m w).2 = inl e.
Proof.
  unfold fmap, M_fmap, mbind, M_bind, mret, M_ret.
  destruct (m w) as [w' [e'|x]]; simpl; [by intros [= <-] | intros [=]].
Qed.

Lemma get_task_reads k : preserves eq (TaskService.get_task k).
Proof.
  unfold TaskService.get_task, TaskRepository.get_task.
  pose proof (validate_task_id_reads k). effects.
Qed.

Lemma get_statistics_reads : preserves eq TaskService.get_statistics.
Proof.
  unfold TaskService.get_statistics, TaskService.get_all_tasks.
  pose proof get_all_tasks_reads. effects.
Qed.

Lemma validate_title_valid title v :
  TaskService.validate_title title = inr v → trimmed v ∧ 1 ≤ len v ≤ 200.
Proof.
  intros (-> & Hne & Hlen)%validate_title_returns.
  split; [apply strip_idemp|]. split; [|done].
  unfold len. destruct (strip title); [done|simpl; lia].
Qed.

Lemma validate_description_valid description v :
  TaskService.validate_description description = inr v →
  trimmed v ∧ len v ≤ 500.
Proof.
  intros (-> & Hlen)%validate_description_returns.
  split; [apply strip_idemp|done].
Qed.

Lemma valid_updated o new_title new_description vt vd :
  valid_task o →
  validate_opt TaskService.validate_title new_title = inr vt →
  validate_opt TaskService.validate_description new_description = inr vd →
  valid_task (updated vt vd o).
Proof.
  intros (Ht1 & Ht2 & Hd1 & Hd2) Ht Hd. unfold valid_task, updated. simpl.
  assert (trimmed (default (Task.title o) vt) ∧
          1 ≤ len (default (Task.title o) vt) ≤ 200) as [? ?].
  { destruct new_title as [t|]; simpl in Ht; [|by injection Ht as <-].
    destruct (TaskService.validate_title t) as [|v] eqn:E; [done|].
    injection Ht as <-. by apply validate_title_valid in E. }
  assert (trimmed (default (Task.description o) vd) ∧
          len (default (Task.description o) vd) ≤ 500) as [? ?].
  { destruct new_description as [d|]; simpl in Hd; [|by injection Hd as <-].
    destruct (TaskService.validate_description d) as [|v] eqn:E; [done|].
    injection Hd as <-. by apply validate_description_valid in E. }
  done.
Qed.

Lemma validate_opt_none validate : validate_opt validate None = inr None.
Proof. done. Qed.

Lemma valid_step w o :
  wf w → Forall valid_task (heap w) → Forall valid_task (heap (step w o)).
Proof.
  intros Hwf Hv. unfold step.
  destruct o as [now t d| |k|k nt nd|k|k|k|]; simpl; rewrite ?fmap_state.
  - unfold mbind, M_bind. rewrite add_task_run.
    destruct (TaskService.validate_title t) as [e|vt] eqn:Ht; [done|].
    destruct (TaskService.validate_description d) as [e|vd] eqn:Hd; [done|].
    simpl. apply Forall_app. split; [done|]. apply Forall_singleton.
    apply validate_title_valid in Ht as [? ?].
    apply validate_description_valid in Hd as [? ?]. done.
  - unfold TaskService.get_all_tasks. by rewrite <- (get_all_tasks_reads w).
  - by rewrite <- (get_task_reads k w).
  - destruct (_tasks w !! k) as [l|] eqn:Hk.
    + destruct (Hwf _ _ Hk) as (o & Hl & _).
      assert (valid_task o) as Ho.
      { rewrite Forall_lookup in Hv. by eapply Hv. }
      rewrite (update_task_stored _ _ _ o _ _ (conj Hk Hl)).
      destruct (validate_opt TaskService.validate_title nt) as [e|vt] eqn:Ht;
        [done|].
      destruct (validate_opt TaskService.validate_description nd)
        as [e|vd] eqn:Hd; simpl; apply Forall_insert; try done.
      * by eapply (valid_updated _ _ None), validate_opt_none.
      * by eapply valid_updated.
    + unfold TaskService.update_task. by rewrite not_found_bind.
  - rewrite delete_task_run. by destruct (_tasks w !! k).
  - destruct (_tasks w !! k) as [l|] eqn:Hk.
    + destruct (Hwf _ _ Hk) as (o & Hl & _).
      assert (valid_task o) as Ho.
      { rewrite Forall_lookup in Hv. by eapply Hv. }
      rewrite (mark_complete_stored _ _ _ o (conj Hk Hl)).
      destruct (Task.is_complete o); [done|]. simpl. by apply Forall_insert.
    + unfold TaskService.mark_complete. by rewrite not_found_bind.
  - destruct (_tasks w !! k) as [l|] eqn:Hk.
    + destruct (Hwf _ _ Hk) as (o & Hl & _).
      assert (valid_task o) as Ho.
      { rewrite Forall_lookup in Hv. by eapply Hv. }
      rewrite (mark_incomplete_stored _ _ _ o (conj Hk Hl)).
      destruct (Task.is_complete o); [|done]. simpl. by apply Forall_insert.
    + unfold TaskService.mark_incomplete. by rewrite not_found_bind.
  - by rewrite <- (get_statistics_reads w).
Qed.

Lemma valid_run ops w :
  wf w → Forall valid_task (heap w) → Forall valid_task (heap (run ops w)).
Proof.
  revert w. induction ops as [|o ops IH]; intros w Hwf Hv; [done|].
  apply IH; [by apply wf_step | by apply valid_step].
Qed.

(** In every reachable state, every task object, stored or deleted, meets
    the constraints of the data model: its title is trimmed and has between
    1 and 200 characters, its description is trimmed and has at most 500,
    and its id is at least 1. *)
Theorem task_fields_valid (w : World) task o :
  reachable w →
  heap w !! task = Some o →
  strip (Task.title o) = Task.title o ∧
  1 ≤ len (Task.title o) ≤ 200 ∧
  strip (Task.description o) = Task.description o ∧
  len (Task.description o) ≤ 500 ∧
  1 ≤ Task.id o.
Proof.
  intros Hr Hl. pose proof (counted_reachable _ Hr) as [_ Hids].
  destruct Hr as [ops <-].
  pose proof (valid_run ops _ wf_init (Forall_nil_2 _)) as Hv.
  rewrite Forall_lookup in Hv. destruct (Hv _ _ Hl) as (Ht&?&Hd&?).
  unfold trimmed in Ht, Hd.
  split_and!; try done; try lia. rewrite (Hids _ _ Hl). lia.
Qed.

Lemma task_fields_valid_witness :
  strip (py "Call dentist") = py "Call dentist" ∧
  1 ≤ len (py "Call dentist") ≤ 200 ∧
  strip [] = [] ∧ len (@nil N) ≤ 500 ∧ 1 ≤ 2.
Proof.
  exact (task_fields_valid w_scenario 1%nat
           (Task.mk 2 (py "Call dentist") [] INCOMPLETE 1)
           reachable_scenario eq_refl).
Defined.

(** In every reachable state a service call either returns or raises one
    of the two exceptions the front end handles, [ValidationError] or
    [TaskNotFoundError]: the fetch after the existence check never comes
    back empty, so no method is ever called on [None]. *)
Theorem only_typed_exceptions (w : World) (o : op) e :
  reachable w →
  (exec o w).2 = inl e →
  (∃ msg, e = ValidationError msg) ∨ (∃ msg, e = TaskNotFoundError msg).
Proof.
  intros Hwf%wf_reachable.
  destruct o as [now t d| |k|k nt nd|k|k|k|]; simpl;
    try (intros He%fmap_raised; revert He).
  - unfold mbind, M_bind. rewrite add_task_run.
    destruct (TaskService.validate_title t) as [e1|vt] eqn:Ht.
    { intros [= <-]. left. by eapply validate_title_error. }
    destruct (TaskService.validate_description d) as [e1|vd] eqn:Hd; [|done].
    intros [= <-]. left. by eapply validate_description_error.
  - unfold TaskService.get_all_tasks. by rewrite (get_all_tasks_run _ Hwf).
  - destruct (_tasks w !! k) as [l|] eqn:Hk.
    + by rewrite (get_task_stored _ _ _ Hk).
    + unfold TaskService.get_task. rewrite not_found_bind by done.
      intros [= <-]. right. by eexists.
  - destruct (_tasks w !! k) as [l|] eqn:Hk.
    + destruct (Hwf _ _ Hk) as (o & Hl & _).
      rewrite (update_task_stored _ _ _ o _ _ (conj Hk Hl)).
      destruct nt as [t|]; simpl.
      * destruct (TaskService.validate_title t) as [e1|vt] eqn:Ht.
        { intros [= <-]. left. by eapply validate_title_error. }
        destruct nd as [d|]; simpl; [|done].
        destruct (TaskService.validate_description d) as [e1|vd] eqn:Hd; [|done].
        intros [= <-]. left. by eapply validate_description_error.
      * destruct nd as [d|]; simpl; [|done].
        destruct (TaskService.validate_description d) as [e1|vd] eqn:Hd; [|done].
        intros [= <-]. left. by eapply validate_description_error.
    + unfold TaskService.update_task. rewrite not_found_bind by done.
      intros [= <-]. right. by eexists.
  - rewrite delete_task_run. destruct (_tasks w !! k); [done|].
    intros [= <-]. right. by eexists.
  - destruct (_tasks w !! k) as [l|] eqn:Hk.
    + destruct (Hwf _ _ Hk) as (o & Hl & _).
      rewrite (mark_complete_stored _ _ _ o (conj Hk Hl)).
      destruct (Task.is_complete o); [|done]. intros [= <-]. left. by eexists.
    + unfold TaskService.mark_complete. rewrite not_found_bind by done.
      intros [= <-]. right. by eexists.
  - destruct (_tasks w !! k) as [l|] eqn:Hk.
    + destruct (Hwf _ _ Hk) as (o & Hl & _).
      rewrite (mark_incomplete_stored _ _ _ o (conj Hk Hl)).
      destruct (Task.is_complete o); [done|]. intros [= <-]. left. by eexists.
    + unfold TaskService.mark_incomplete. rewrite not_found_bind by done.
      intros [= <-]. right. by eexists.
  - destruct (list_all_entries w Hwf) as (tasks & Hall & Hheap).
    by rewrite (get_statistics_run _ _ Hall Hheap).
Qed.

Lemma only_typed_exceptions_witness :
  (∃ msg, TaskNotFoundError "Task ID 1 not found" = ValidationError msg) ∨
  (∃ msg, TaskNotFoundError "Task ID 1 not found" = TaskNotFoundError msg).
Proof.
  exact (only_typed_exceptions w_scenario (MarkComplete 1)
           (TaskNotFoundError "Task ID 1 not found")
           reachable_scenario eq_refl).
Defined.

(** ** Listing, continued *)

Lemma wf_added w o : wf w → wf (added w o).
Proof.
  intros Hwf k l Hk. simpl in Hk.
  apply lookup_insert_Some in Hk as [[<- <-] | [_ Hk]].
  - eexists. split; [by apply list_lookup_middle | done].
  - destruct (Hwf _ _ Hk) as (o1 & Hl & Hid).
    exists o1. split; [by apply lookup_app_l_Some | done].
Qed.

Lemma wf_removed w k : wf w → wf (removed w k).
Proof.
  intros Hwf k' l Hk. simpl in Hk.
  apply lookup_delete_Some in Hk as [_ Hk]. by apply Hwf.
Qed.

Lemma wf_write w task o o' :
  heap w !! task = Some o → Task.id o' = Task.id o → wf w → wf (write w task o').
Proof.
  intros Hl Hid Hwf k l Hk. simpl in *.
  destruct (Hwf _ _ Hk) as (o1 & Hl1 & Hid1).
  destruct (decide (l = task)) as [->|Hne].
  - exists o'. split; [by eapply heap_insert_eq | congruence].
  - exists o1. split; [by rewrite list_lookup_insert_ne | done].
Qed.

Lemma get_all_tasks_listing w :
  wf w → TaskService.get_all_tasks w = (w, inr (listing w)).
Proof. apply get_all_tasks_run. Qed.

(** Two keys that lead to the same object are the same key. *)
Lemma wf_injective w k1 k2 l :
  wf w → _tasks w !! k1 = Some l → _tasks w !! k2 = Some l → k1 = k2.
Proof.
  intros Hwf H1 H2.
  destruct (Hwf _ _ H1) as (o1 & Hl1 & <-).
  destruct (Hwf _ _ H2) as (o2 & Hl2 & <-). congruence.
Qed.

(** A list of entries sorted on the key that holds the entries of a map
    is the sorted list of the entries of that map. *)
Lemma sorted_entries_unique (m : gmap Z nat) (kls : list (Z * nat)) :
  StronglySorted TaskRepository.key_le kls →
  kls ≡ₚ map_to_list m →
  kls = merge_sort TaskRepository.key_le (map_to_list m).
Proof.
  intros Hs Hp. apply (StronglySorted_unique_strong TaskRepository.key_le).
  - intros [k1 l1] [k2 l2] H1 H2 H12 H21.
    rewrite Hp in H1. rewrite merge_sort_Permutation in H2.
    apply elem_of_map_to_list in H1, H2.
    unfold TaskRepository.key_le in *. simpl in *.
    assert (k1 = k2) as -> by lia. congruence.
  - done.
  - apply StronglySorted_merge_sort; apply _.
  - by rewrite merge_sort_Permutation.
Qed.

Lemma StronglySorted_filter {A} (R : relation A) (P : A → Prop)
    `{∀ x, Decision (P x)} (l : list A) :
  StronglySorted R l → StronglySorted R (filter P l).
Proof.
  induction 1 as [|x l Hs IH Hall]; [constructor|].
  rewrite filter_cons. destruct (decide (P x)); [|done]. constructor; [done|].
  rewrite Forall_forall in *. intros y [_ Hy]%list_elem_of_filter. by apply Hall.
Qed.

Lemma filter_fmap_agree {A B} (f : A → B) (P : A → Prop) (Q : B → Prop)
    `{∀ x, Decision (P x)} `{∀ y, Decision (Q y)} (l : list A) :
  (∀ x, x ∈ l → (P x ↔ Q (f x))) →
  f <$> filter P l = filter Q (f <$> l).
Proof.
  induction l as [|x l IH]; intros HPQ; [done|].
  csimpl. rewrite !filter_cons.
  assert (P x ↔ Q (f x)) as Hx by (apply HPQ; left).
  rewrite <- IH by (intros y Hy; apply HPQ; by right).
  destruct (decide (P x)), (decide (Q (f x))); try done; tauto.
Qed.

(** In a reachable state a task that [add_task] returns is listed last:
    the listing after the call is the listing before it with the new task
    appended. *)
Theorem new_task_listed_last now title description w w' task tasks :
  reachable w →
  TaskService.add_task now title description w = (w', inr task) →
  TaskService.get_all_tasks w = (w, inr tasks) →
  TaskService.get_all_tasks w' = (w', inr (tasks ++ [task])).
Proof.
  intros Hr Hadd Hall. pose proof (wf_reachable _ Hr) as Hwf.
  pose proof (counted_reachable _ Hr) as Hc.
  rewrite (get_all_tasks_listing _ Hwf) in Hall. injection Hall as <-.
  rewrite add_task_run in Hadd.
  destruct (TaskService.validate_title title) as [|vt]; [done|].
  destruct (TaskService.validate_description description) as [|vd]; [done|].
  injection Hadd as <- <-.
  rewrite get_all_tasks_listing by (by apply wf_added).
  do 2 f_equal. unfold listing. simpl.
  set (kls := merge_sort TaskRepository.key_le (map_to_list (_tasks w))).
  assert (kls ≡ₚ map_to_list (_tasks w)) as Hp by apply merge_sort_Permutation.
  rewrite <- (sorted_entries_unique _ (kls ++ [(_next_id w, length (heap w))])).
  - by rewrite fmap_app.
  - apply StronglySorted_app_2.
    + intros [k1 l1] x2 H1 ->%list_elem_of_singleton.
      rewrite Hp in H1. apply elem_of_map_to_list in H1.
      pose proof (keys_in_range _ _ _ Hwf Hc H1).
      unfold TaskRepository.key_le. simpl. lia.
    + apply StronglySorted_merge_sort; apply _.
    + repeat constructor.
  - rewrite map_to_list_insert by (by apply next_id_free).
    by rewrite Hp, Permutation_app_comm.
Qed.

Lemma new_task_listed_last_witness :
  TaskService.get_all_tasks
    (TaskService.add_task 7 (py "Pay rent") [] w_scenario).1
  = ((TaskService.add_task 7 (py "Pay rent") [] w_scenario).1,
     inr ([1%nat; 2%nat] ++ [3%nat])).
Proof.
  exact (new_task_listed_last 7 (py "Pay rent") [] w_scenario _ 3%nat
           [1%nat; 2%nat] reachable_scenario eq_refl eq_refl).
Defined.

(** In a reachable state, deleting a stored task takes exactly that task
    out of the listing and leaves the others in their order. *)
Theorem deleted_task_unlisted w w' task_id task o tasks r :
  reachable w →
  stored w task_id task o →
  TaskService.delete_task task_id w = (w', inr r) →
  TaskService.get_all_tasks w = (w, inr tasks) →
  TaskService.get_all_tasks w' = (w', inr (filter (λ t, t ≠ task) tasks)).
Proof.
  intros Hr [Hk Hl] Hdel Hall. pose proof (wf_reachable _ Hr) as Hwf.
  rewrite (get_all_tasks_listing _ Hwf) in Hall. injection Hall as <-.
  rewrite delete_task_run, Hk in Hdel. injection Hdel as <- <-.
  rewrite get_all_tasks_listing by (by apply wf_removed).
  do 2 f_equal. unfold listing. simpl.
  set (kls := merge_sort TaskRepository.key_le (map_to_list (_tasks w))).
  assert (kls ≡ₚ map_to_list (_tasks w)) as Hp by apply merge_sort_Permutation.
  rewrite <- (sorted_entries_unique _ (filter (λ kl, kl.1 ≠ task_id) kls)).
  - apply filter_fmap_agree. intros [k l] Hin. simpl.
    rewrite Hp in Hin. apply elem_of_map_to_list in Hin.
    split; intros Hne E; apply Hne.
    + subst l. by eapply wf_injective.
    + subst k. congruence.
  - apply StronglySorted_filter, StronglySorted_merge_sort; apply _.
  - apply NoDup_Permutation.
    + apply NoDup_filter. rewrite Hp. apply NoDup_map_to_list.
    + apply NoDup_map_to_list.
    + intros [k l]. rewrite list_elem_of_filter, Hp, !elem_of_map_to_list.
      rewrite lookup_delete_Some. simpl. split; intros [? ?]; auto.
Qed.

Lemma deleted_task_unlisted_witness :
  TaskService.get_all_tasks (TaskService.delete_task 2 w_scenario).1
  = ((TaskService.delete_task 2 w_scenario).1,
     inr (filter (λ t, t ≠ 1%nat) [1%nat; 2%nat])).
Proof.
  exact (deleted_task_unlisted w_scenario _ 2 1%nat
           (Task.mk 2 (py "Call dentist") [] INCOMPLETE 1) [1%nat; 2%nat]
           (Some 1%nat) reachable_scenario (conj eq_refl eq_refl)
           eq_refl eq_refl).
Defined.

(** ** Statistics, continued *)

Lemma listing_entries w l :
  l ∈ listing w ↔ ∃ k, _tasks w !! k = Some l.
Proof.
  unfold listing. rewrite list_elem_of_fmap. split.
  - intros ([k l'] & -> & Hin). rewrite merge_sort_Permutation in Hin.
    apply elem_of_map_to_list in Hin. by exists k.
  - intros [k Hk]. exists (k, l). split; [done|].
    rewrite merge_sort_Permutation. by apply elem_of_map_to_list.
Qed.

Lemma listing_NoDup w : wf w → NoDup (listing w).
Proof.
  intros Hwf. unfold listing. apply NoDup_fmap_2_strong.
  - intros [k1 l1] [k2 l2] H1 H2 E. simpl in E. subst l2.
    rewrite merge_sort_Permutation in H1, H2.
    apply elem_of_map_to_list in H1, H2.
    by rewrite (wf_injective _ _ _ _ Hwf H1 H2).
  - rewrite merge_sort_Permutation. apply NoDup_map_to_list.
Qed.

Lemma listing_length w : length (listing w) = size (_tasks w).
Proof.
  unfold listing.
  by rewrite length_fmap, merge_sort_Permutation, length_map_to_list.
Qed.

Lemma listing_heap w : wf w → Forall (λ l, is_Some (heap w !! l)) (listing w).
Proof.
  intros Hwf. apply Forall_forall. intros l [k Hk]%listing_entries.
  destruct (Hwf _ _ Hk) as (o & Hl & _). by exists o.
Qed.

Lemma statistics_listing w :
  wf w →
  TaskService.get_statistics w
  = (w, inr (len (listing w),
             len (filter (λ t, is_complete_at w t = true) (listing w)),
             len (listing w)
             - len (filter (λ t, is_complete_at w t = true) (listing w)))).
Proof.
  intros Hwf. apply get_statistics_run.
  - by apply get_all_tasks_listing.
  - by apply listing_heap.
Qed.

(** In every reachable state the total that [get_statistics] returns is
    the number of entries of the dictionary, and the three numbers are in
    range: neither [completed] nor [remaining] is negative or exceeds the
    total. *)
Theorem statistics_in_range (w : World) :
  reachable w →
  ∃ total completed remaining,
    TaskService.get_statistics w = (w, inr (total, completed, remaining)) ∧
    total = Z.of_nat (size (_tasks w)) ∧
    0 ≤ completed ≤ total ∧ 0 ≤ remaining ≤ total.
Proof.
  intros Hwf%wf_reachable. rewrite (statistics_listing _ Hwf).
  eexists _, _, _. split; [done|]. unfold len.
  pose proof (length_filter (λ t, is_complete_at w t = true) (listing w)).
  rewrite listing_length in *. lia.
Qed.

Lemma statistics_in_range_witness :
  ∃ total completed remaining,
    TaskService.get_statistics w_scenario
    = (w_scenario, inr (total, completed, remaining)) ∧
    total = Z.of_nat (size (_tasks w_scenario)) ∧
    0 ≤ completed ≤ total ∧ 0 ≤ remaining ≤ total.
Proof. exact (statistics_in_range w_scenario reachable_scenario). Defined.

Lemma filter_length_agree {A} (P Q : A → Prop) `{∀ x, Decision (P x)}
    `{∀ x, Decision (Q x)} (l : list A) :
  (∀ x, x ∈ l → (P x ↔ Q x)) → length (filter P l) = length (filter Q l).
Proof.
  induction l as [|x l IH]; intros Hiff; [done|].
  rewrite !filter_cons.
  assert (P x ↔ Q x) as Hx by (apply Hiff; left).
  assert (length (filter P l) = length (filter Q l)) as Hl
    by (apply IH; intros y Hy; apply Hiff; by right).
  destruct (decide (P x)), (decide (Q x)); simpl; try lia; tauto.
Qed.

(** Turning one element of a duplicate-free list from outside a predicate
    to inside it raises the count by one. *)
Lemma filter_count_flip `{EqDecision A} (P Q : A → Prop) `{∀ x, Decision (P x)}
    `{∀ x, Decision (Q x)} (l : list A) (a : A) :
  NoDup l → a ∈ l → ¬ P a → Q a → (∀ x, x ≠ a → (P x ↔ Q x)) →
  length (filter Q l) = S (length (filter P l)).
Proof.
  intros Hnd Hin HP HQ Hiff.
  induction l as [|x l IH]; [by apply elem_of_nil in Hin|].
  apply NoDup_cons in Hnd as [Hx Hnd]. rewrite !filter_cons.
  destruct (decide (x = a)) as [->|Hne].
  - destruct (decide (P a)), (decide (Q a)); try done. simpl. f_equal.
    symmetry. apply filter_length_agree. intros y Hy. apply Hiff.
    intros ->. done.
  - apply elem_of_cons in Hin as [->|Hin]; [done|].
    specialize (IH Hnd Hin). pose proof (Hiff x Hne) as Hx'.
    destruct (decide (P x)), (decide (Q x)); simpl; try lia; tauto.
Qed.

Lemma is_complete_at_write w task o' t :
  is_Some (heap w !! task) →
  is_complete_at (write w task o') t
  = if decide (t = task) then Task.is_complete o' else is_complete_at w t.
Proof.
  intros [o Hl]. unfold is_complete_at, write. simpl.
  destruct (decide (t = task)) as [->|Hne].
  - by rewrite (heap_insert_eq _ _ _ _ Hl).
  - by rewrite list_lookup_insert_ne.
Qed.

Lemma listing_write w task o' : listing (write w task o') = listing w.
Proof. done. Qed.

(** Statistics after a status change of a stored task, of which the new
    fields are [o']. *)
Lemma statistics_after_flip w task_id task o o' :
  wf w → stored w task_id task o → Task.id o' = Task.id o →
  Task.is_complete o = false → Task.is_complete o' = true →
  len (filter (λ t, is_complete_at (write w task o') t = true) (listing w))
  = len (filter (λ t, is_complete_at w t = true) (listing w)) + 1.
Proof.
  intros Hwf [Hk Hl] Hid Ho Ho'. unfold len.
  rewrite (filter_count_flip (λ t, is_complete_at w t = true)
             (λ t, is_complete_at (write w task o') t = true) _ task).
  - lia.
  - by apply listing_NoDup.
  - apply listing_entries. by exists task_id.
  - unfold is_complete_at. rewrite Hl. congruence.
  - rewrite is_complete_at_write by eauto. by rewrite decide_True.
  - intros t Hne. rewrite is_complete_at_write by eauto.
    by rewrite decide_False.
Qed.

(** In a reachable state, marking a stored incomplete task complete leaves
    the total as it is, raises [completed] by one and lowers [remaining] by
    one; marking a complete task incomplete does the opposite. *)
Theorem statistics_follow_status w task_id task o total completed remaining :
  reachable w →
  stored w task_id task o →
  TaskService.get_statistics w = (w, inr (total, completed, remaining)) →
  (Task.status o = INCOMPLETE →
     ∃ w', TaskService.mark_complete task_id w = (w', inr (Some task)) ∧
           TaskService.get_statistics w'
           = (w', inr (total, completed + 1, remaining - 1))) ∧
  (Task.status o = COMPLETE →
     ∃ w', TaskService.mark_incomplete task_id w = (w', inr (Some task)) ∧
           TaskService.get_statistics w'
           = (w', inr (total, completed - 1, remaining + 1))).
Proof.
  intros Hwf%wf_reachable Hst Hstat. pose proof Hst as [Hk Hl].
  rewrite (statistics_listing _ Hwf) in Hstat. injection Hstat as <- <- <-.
  split; intros Hs.
  - rewrite (mark_complete_stored _ _ _ _ Hst).
    apply is_complete_incomplete in Hs. rewrite Hs.
    eexists. split; [done|].
    change (mkWorld (<[task := ?x]> (heap w)) (_tasks w) (_next_id w))
      with (write w task x).
    assert (wf (write w task (Task.mark_complete o))) as Hwf'
      by (by eapply wf_write).
    rewrite (statistics_listing _ Hwf'), listing_write.
    rewrite (statistics_after_flip _ _ _ _ _ Hwf Hst) by done.
    by rewrite Z.sub_add_distr.
  - rewrite (mark_incomplete_stored _ _ _ _ Hst).
    apply is_complete_status in Hs. rewrite Hs.
    eexists. split; [done|].
    change (mkWorld (<[task := ?x]> (heap w)) (_tasks w) (_next_id w))
      with (write w task x).
    set (o' := Task.mark_incomplete o).
    assert (wf (write w task o')) as Hwf' by (by eapply wf_write).
    rewrite (statistics_listing _ Hwf'), listing_write.
    assert (stored (write w task o') task_id task o') as Hst'
      by (by eapply stored_after_write).
    pose proof (statistics_after_flip (write w task o') task_id task o' o
                  Hwf' Hst' eq_refl eq_refl Hs) as Hflip.
    rewrite write_write, (write_same _ _ _ Hl), listing_write in Hflip.
    rewrite Hflip. clear Hflip.
    set (c := len (filter _ (listing w))). set (n := len (listing w)).
    replace (c + 1 - 1) with c by lia.
    by replace (n - (c + 1) + 1) with (n - c) by lia.
Qed.

Lemma statistics_follow_status_witness :
  ∃ w', TaskService.mark_complete 2 w_scenario = (w', inr (Some 1%nat)) ∧
        TaskService.get_statistics w' = (w', inr (2, 0 + 1, 2 - 1)).
Proof.
  exact (proj1 (statistics_follow_status w_scenario 2 1%nat
                  (Task.mk 2 (py "Call dentist") [] INCOMPLETE 1) 2 0 2
                  reachable_scenario (conj eq_refl eq_refl) eq_refl)
               eq_refl).
Defined.

(** ** The repository on its own *)

Lemma listing_empty w : _tasks w = ∅ → listing w = [].
Proof. intros H. unfold listing. by rewrite H, map_to_list_empty. Qed.

(** [clear] empties the dictionary and sets the counter back to 1, in any
    state: afterwards the listing is empty, the statistics are all 0, no id
    is found, and the next [add_task] that returns hands out id 1, so ids
    handed out before the reset are handed out again.  The task objects
    themselves are not touched. *)
Theorem clear_resets (w : World) :
  ∃ w0, TaskRepository.clear w = (w0, inr ()) ∧
        _tasks w0 = ∅ ∧ _next_id w0 = 1 ∧ heap w0 = heap w ∧
        TaskService.get_all_tasks w0 = (w0, inr []) ∧
        TaskService.get_statistics w0 = (w0, inr (0, 0, 0)) ∧
        (∀ k, TaskService.get_task k w0 = (w0, inl (not_found k))) ∧
        (∀ now title description w1 task,
           TaskService.add_task now title description w0 = (w1, inr task) →
           returned_id (w1, inr task) = Some 1).
Proof.
  exists (mkWorld (heap w) ∅ 1). split; [done|].
  set (w0 := mkWorld (heap w) ∅ 1).
  assert (wf w0) as Hwf.
  { intros k l Hk. simpl in Hk. by rewrite lookup_empty in Hk. }
  assert (listing w0 = []) as Hl by (by apply listing_empty).
  split_and!; [done|done|done| | | |].
  - by rewrite (get_all_tasks_listing _ Hwf), Hl.
  - by rewrite (statistics_listing _ Hwf), Hl.
  - intros k. unfold TaskService.get_task. apply not_found_bind.
    apply lookup_empty.
  - intros now t d w1 task. rewrite add_task_run.
    destruct (TaskService.validate_title t); [done|].
    destruct (TaskService.validate_description d); [done|].
    intros [= <- <-]. simpl. by rewrite list_lookup_middle.
Qed.

Lemma clear_resets_witness :
  returned_id (TaskService.add_task 9 (py "Again") []
                 (TaskRepository.clear w_scenario).1)
  = Some 1.
Proof.
  destruct (clear_resets w_scenario) as (w0 & Hclear & _ & _ & _ & _ & _ & _ & H).
  rewrite Hclear. simpl.
  destruct (TaskService.add_task 9 (py "Again") [] w0) as [w1 [e|task]] eqn:E.
  - exfalso. injection Hclear as <-. vm_compute in E. discriminate E.
  - by eapply H.
Defined.

(** The repository's [delete_task] reports whether it removed an entry:
    on an id that is absent it returns [False] and changes nothing, which
    is not an error; on an id that is present it removes the entry and
    returns [True], after which the id no longer exists and a second
    [delete_task] returns [False]. *)
Theorem repository_delete_task (w : World) (task_id : Z) :
  (_tasks w !! task_id = None →
     TaskRepository.delete_task task_id w = (w, inr false)) ∧
  (is_Some (_tasks w !! task_id) →
     TaskRepository.delete_task task_id w = (removed w task_id, inr true) ∧
     TaskRepository.task_exists task_id (removed w task_id)
     = (removed w task_id, inr false) ∧
     TaskRepository.delete_task task_id (removed w task_id)
     = (removed w task_id, inr false)).
Proof.
  unfold TaskRepository.delete_task, TaskRepository.task_exists. unfold_M.
  split.
  - by intros ->.
  - intros [l Hk]. rewrite Hk. simpl.
    by rewrite lookup_delete_eq.
Qed.

Lemma repository_delete_task_witness :
  TaskRepository.delete_task 1 w_one = (removed w_one 1, inr true) ∧
  TaskRepository.task_exists 1 (removed w_one 1) = (removed w_one 1, inr false) ∧
  TaskRepository.delete_task 1 (removed w_one 1) = (removed w_one 1, inr false).
Proof.
  apply (repository_delete_task w_one 1). by exists 0%nat.
Defined.

(** The repository's [add_task] stores any task object under the object's
    own id, whatever was stored there before: afterwards the id exists and
    [get_task] returns that object, the other ids are as they were, and the
    counter is above the id and not below where it was; an id below the
    counter leaves the counter alone. *)
Theorem repository_add_task_lookup (w : World) task o :
  heap w !! task = Some o →
  ∃ w', TaskRepository.add_task task w = (w', inr task) ∧
        TaskRepository.get_task (Task.id o) w' = (w', inr (Some task)) ∧
        TaskRepository.task_exists (Task.id o) w' = (w', inr true) ∧
        (∀ k, k ≠ Task.id o →
              TaskRepository.get_task k w' = (w', inr (_tasks w !! k))) ∧
        heap w' = heap w ∧
        Task.id o < _next_id w' ∧ _next_id w ≤ _next_id w' ∧
        (Task.id o < _next_id w → _next_id w' = _next_id w).
Proof.
  intros Hl. unfold TaskRepository.add_task, TaskRepository.get_task,
    TaskRepository.task_exists. unfold_M. rewrite Hl. simpl. rewrite Hl.
  eexists. split; [done|]. simpl. rewrite lookup_insert_eq.
  split_and!; try done; try lia.
  intros k Hne. by rewrite lookup_insert_ne.
Qed.

Lemma repository_add_task_lookup_witness :
  ∃ w', TaskRepository.add_task 0%nat (removed w_one 1) = (w', inr 0%nat) ∧
        TaskRepository.get_task 1 w' = (w', inr (Some 0%nat)) ∧
        TaskRepository.task_exists 1 w' = (w', inr true) ∧
        (∀ k, k ≠ 1 →
              TaskRepository.get_task k w'
              = (w', inr (_tasks (removed w_one 1) !! k))) ∧
        heap w' = heap (removed w_one 1) ∧
        1 < _next_id w' ∧ _next_id (removed w_one 1) ≤ _next_id w' ∧
        (1 < _next_id (removed w_one 1) →
         _next_id w' = _next_id (removed w_one 1)).
Proof.
  exact (repository_add_task_lookup (removed w_one 1) 0%nat o_one eq_refl).
Defined.

(** ** Reading a line of text *)

Lemma exceeds_false max_length value n :
  exceeds max_length value = false →
  max_length = Some n → n ≠ 0 → len value ≤ n.
Proof.
  intros He ->. simpl in He. intros Hn.
  apply andb_false_iff in He as [He|He].
  - apply negb_false_iff, Z.eqb_eq in He. done.
  - by apply Z.ltb_ge in He.
Qed.

(** When [get_text_input] returns a text, the text is a line of the input,
    every line before it was read and rejected, and the lines after it are
    left to be read.  With [required] the text is not blank, so
    [validate_title] does not reject it as empty.  A text that is not empty
    is within [max_length] when a limit other than 0 is given; the empty
    text is returned only when the input is not required. *)
Theorem get_text_input_accepts prompt required max_length stdin stdout
    stdin' stdout' v :
  get_text_input prompt required max_length stdin stdout
  = (stdin', stdout', Some v) →
  (∃ rejected, stdin = rejected ++ v :: stdin') ∧
  (required = true →
     ¬ whitespace_only v ∧
     TaskService.validate_title v
     ≠ inl (ValidationError "Task title cannot be empty")) ∧
  (v = [] → required = false) ∧
  (∀ n, max_length = Some n → n ≠ 0 → v ≠ [] → len v ≤ n).
Proof.
  revert stdout. induction stdin as [|value rest IH]; intros stdout; [done|].
  simpl. destruct required; simpl.
  - destruct (truthy (strip value)) eqn:Hs; simpl.
    + destruct (exceeds max_length value) eqn:He.
      * intros H. destruct (IH _ H) as ([rej ->] & ? & ? & ?).
        split_and!; try done. by exists (value :: rej).
      * intros [= <- <- <-].
        assert (¬ whitespace_only value) as Hw.
        { rewrite <- strip_nil. intros E. by rewrite E in Hs. }
        split_and!.
        -- by exists [].
        -- intros _. split; [done|]. unfold TaskService.validate_title.
           assert (truthy value = true) as ->.
           { destruct value; [|done]. by vm_compute in Hs. }
           rewrite Hs. simpl. by destruct (200 <? len (strip value)).
        -- intros ->. by vm_compute in Hs.
        -- intros n Hm Hn _. by eapply exceeds_false.
    + intros H. destruct (IH _ H) as ([rej ->] & ? & ? & ?).
      split_and!; try done. by exists (value :: rej).
  - case_bool_decide as Hv.
    + subst value. intros [= <- <- <-]. split_and!; try done. by exists [].
    + destruct (exceeds max_length value) eqn:He.
      * intros H. destruct (IH _ H) as ([rej ->] & ? & ? & ?).
        split_and!; try done. by exists (value :: rej).
      * intros [= <- <- <-]. split_and!; try done.
        -- by exists [].
        -- intros n Hm Hn _. by eapply exceeds_false.
Qed.

(** A blank line and a line of 201 characters are turned down, the third
    line is returned. *)
Lemma get_text_input_accepts_witness :
  (∃ rejected,
     [py "  "; long_text 201; py "Buy milk"; py "next"]
     = rejected ++ py "Buy milk" :: [py "next"]) ∧
  (true = true →
     ¬ whitespace_only (py "Buy milk") ∧
     TaskService.validate_title (py "Buy milk")
     ≠ inl (ValidationError "Task title cannot be empty")) ∧
  (py "Buy milk" = [] → true = false) ∧
  (∀ n, Some 200 = Some n → n ≠ 0 → py "Buy milk" ≠ [] →
        len (py "Buy milk") ≤ n).
Proof.
  refine (get_text_input_accepts (py "Enter task title: ") true (Some 200)
            [py "  "; long_text 201; py "Buy milk"; py "next"] []
            [py "next"] _ (py "Buy milk") _).
  by vm_compute.
Defined.

(** ** update_task and the listing *)

Lemma is_complete_at_same_status w task o o' t :
  heap w !! task = Some o → Task.status o' = Task.status o →
  is_complete_at (write w task o') t = is_complete_at w t.
Proof.
  intros Hl Hs. rewrite is_complete_at_write by eauto. case_decide as Ht; [|done].
  subst t. unfold is_complete_at, Task.is_complete. by rewrite Hl, Hs.
Qed.

Lemma statistics_same_status w task_id task o o' :
  wf w → stored w task_id task o →
  Task.id o' = Task.id o → Task.status o' = Task.status o →
  TaskService.get_all_tasks (write w task o')
  = (write w task o', inr (listing w)) ∧
  ∃ s, TaskService.get_statistics w = (w, inr s) ∧
       TaskService.get_statistics (write w task o') = (write w task o', inr s).
Proof.
  intros Hwf [Hk Hl] Hid Hs.
  assert (wf (write w task o')) as Hwf' by (by eapply wf_write).
  split; [by rewrite (get_all_tasks_listing _ Hwf')|].
  eexists. split; [by apply statistics_listing|].
  rewrite (statistics_listing _ Hwf'), listing_write.
  rewrite (list_filter_iff (λ t, is_complete_at (write w task o') t = true)
             (λ t, is_complete_at w t = true)); [done|].
  intros t. by rewrite (is_complete_at_same_status _ _ _ _ _ Hl Hs).
Qed.

(** In a reachable state [update_task] never changes what is listed or
    counted, whether it returns or raises: after the call [get_all_tasks]
    returns the same tasks in the same order and [get_statistics] the same
    three numbers as before it. *)
Theorem update_keeps_listing w w' task_id new_title new_description r :
  reachable w →
  TaskService.update_task task_id new_title new_description w = (w', r) →
  ∃ tasks s,
    TaskService.get_all_tasks w = (w, inr tasks) ∧
    TaskService.get_all_tasks w' = (w', inr tasks) ∧
    TaskService.get_statistics w = (w, inr s) ∧
    TaskService.get_statistics w' = (w', inr s).
Proof.
  intros Hwf%wf_reachable Hup.
  assert (∃ s, TaskService.get_statistics w = (w, inr s)) as [s0 Hs0]
    by (eexists; by apply statistics_listing).
  destruct (_tasks w !! task_id) as [task|] eqn:Hk.
  - destruct (Hwf _ _ Hk) as (o & Hl & _).
    assert (∃ o', w' = write w task o' ∧ Task.id o' = Task.id o ∧
                  Task.status o' = Task.status o) as (o' & -> & Hid & Hst).
    { rewrite (update_task_stored _ _ _ o _ _ (conj Hk Hl)) in Hup.
      destruct (validate_opt TaskService.validate_title new_title) as [e|vt].
      { injection Hup as <- _. exists o. by rewrite write_same. }
      destruct (validate_opt TaskService.validate_description new_description)
        as [e|vd]; injection Hup as <- _; by eexists. }
    destruct (statistics_same_status w task_id task o o' Hwf (conj Hk Hl) Hid Hst)
      as (Hall & s & Hs & Hs').
    exists (listing w), s. split_and!; try done.
    by apply get_all_tasks_listing.
  - unfold TaskService.update_task in Hup. rewrite not_found_bind in Hup by done.
    injection Hup as <- _. exists (listing w), s0.
    split_and!; try done; by apply get_all_tasks_listing.
Qed.

Lemma update_keeps_listing_witness :
  ∃ tasks s,
    TaskService.get_all_tasks w_scenario = (w_scenario, inr tasks) ∧
    TaskService.get_all_tasks
      (TaskService.update_task 3 (Some (py "Ship it")) (Some (long_text 501))
         w_scenario).1
    = ((TaskService.update_task 3 (Some (py "Ship it")) (Some (long_text 501))
          w_scenario).1, inr tasks) ∧
    TaskService.get_statistics w_scenario = (w_scenario, inr s) ∧
    TaskService.get_statistics
      (TaskService.update_task 3 (Some (py "Ship it")) (Some (long_text 501))
         w_scenario).1
    = ((TaskService.update_task 3 (Some (py "Ship it")) (Some (long_text 501))
          w_scenario).1, inr s).
Proof.
  exact (update_keeps_listing w_scenario _ 3 (Some (py "Ship it"))
           (Some (long_text 501)) _ reachable_scenario
           (surjective_pairing _)).
Defined.
